(** * chatgpt-gtk4: the chat and image coordinators of [internal/app/app.go]

    A shallow embedding of the Go package [app]: the message store behind
    [initDB] and [loadChatHistory], the two versions of [onSendMessage] and
    [onGenerateImage] that the source file holds, [onSaveImage] and
    [copyImageFile].

    The program is a GTK application: handlers run on the UI thread, start
    goroutines, and goroutines hand UI updates back with [glib.IdleAdd].  The
    embedding keeps that shape: a state-and-error monad over a [World]
    (widgets, store, file system, captured variables, idle queue), an event
    log whose entries carry the thread that performed them, and a schedule
    that lets the main loop run queued callbacks between any two steps of a
    goroutine. *)

From Stdlib Require Import ZArith QArith List Sorted Permutation.
From stdpp Require Import base gmap list strings.

Open Scope Z_scope.

(** ** The message store

    [initDB] creates
    [messages(id INTEGER PRIMARY KEY, role TEXT NOT NULL, content TEXT NOT NULL,
              timestamp DATETIME DEFAULT CURRENT_TIMESTAMP)].
    The handlers only ever run
    [INSERT INTO messages (role, content) VALUES (?, ?)] and
    [SELECT role, content FROM messages ORDER BY timestamp]. *)
Module Store.

(** One row.  [timestamp] is the value of SQLite's [CURRENT_TIMESTAMP] when
    the row was inserted: the wall clock in whole seconds. *)
Record Message := {
  id : Z;
  role : string;
  content : string;
  timestamp : Z
}.

(** The table, rows in the order they were inserted. *)
Abbreviation DB := (list Message).

(** An INTEGER PRIMARY KEY left out of the INSERT gets one more than the
    largest key in use. *)
Definition next_id (db : DB) : Z := 1 + fold_right Z.max 0 (map id db).

(** [INSERT INTO messages (role, content) VALUES (r, c)], executed while the
    clock reads [now]. *)
Definition insert (now : Z) (r c : string) (db : DB) : DB :=
  db ++ [ {| id := next_id db; role := r; content := c; timestamp := now |} ].

(** [ORDER BY timestamp]: rows are taken in table order and each is placed
    behind the rows whose timestamp is not larger, so rows with the same
    timestamp stay in table order. *)
Fixpoint place (m : Message) (sorted : list Message) : list Message :=
  match sorted with
  | [] => [m]
  | x :: rest =>
      if timestamp m <? timestamp x then m :: x :: rest
      else x :: place m rest
  end.

Definition order_by_timestamp (db : DB) : list Message :=
  fold_left (fun sorted m => place m sorted) db [].

(** [SELECT role, content FROM messages ORDER BY timestamp]. *)
Definition list_all (db : DB) : list (string * string) :=
  map (fun m => (role m, content m)) (order_by_timestamp db).




Definition not_later (a b : Message) : Prop := timestamp a <= timestamp b.

End Store.

(** ** What the outside world answers

    Every call that leaves the process (the store, the completion service, the
    image service, the file system, the file chooser) has its outcome fixed by
    a record of the request it belongs to. *)

(** [db.Exec]: the row is written while the clock reads [now], or the call
    returns an error. *)
Inductive ExecOutcome :=
| ExecOk (now : Z)
| ExecErr (msg : string).

(** [openai.ChatCompletionChunk]: the [Delta.Content] of each choice. *)
Record ChatCompletionChunk := { Choices : list string }.

(** [openai.ChatCompletionNewParams], the fields the handlers can set:
    role-tagged messages, the model, the sampling temperature. *)
Record ChatCompletionNewParams := {
  Messages : list (string * string);
  Model : string;
  Temperature : option Q
}.

Definition UserMessage (text : string) : string * string := ("user", text).

Definition ChatModelGPT4oMini : string := "gpt-4o-mini".
Definition ChatModelGPT4o : string := "gpt-4o".

(** One call of [onSendMessage]: the outcome of the INSERT of the user row,
    the chunks [stream.Next] delivers before it returns false, what
    [stream.Err] then holds, and the outcome of the INSERT of the assistant
    row. *)
Record SendEnv := {
  user_exec : ExecOutcome;
  stream : list ChatCompletionChunk;
  stream_err : option string;
  assistant_exec : ExecOutcome
}.

(** [openai.ImageGenerateParams] as the handlers fill it. *)
Record ImageGenerateParams := {
  Prompt : string;
  ImageModel : string;
  ResponseFormat : string;
  N : Z
}.

Definition ImageModelDallE2 : string := "dall-e-2".
Definition ImageModelDallE3 : string := "dall-e-3".
Definition ImageGenerateParamsResponseFormatB64JSON : string := "b64_json".

(** [client.Images.Generate]: an error, or the [B64JSON] of every element of
    [result.Data]. *)
Inductive GenerateOutcome :=
| GenerateErr (msg : string)
| GenerateOk (Data : list string).

(** [os.WriteFile]: written in full; refused before the file was opened; or
    failed after the file was truncated and [n] bytes were written. *)
Inductive WriteOutcome :=
| Written
| NotOpened (msg : string)
| Short (n : nat) (msg : string).

Record Texture := { texture_bytes : list Byte.byte }.

(** One call of [onGenerateImage]: the answer of the image service, what
    [base64.StdEncoding.DecodeString] makes of a payload, the outcome of
    writing the cache file and of [gdk.NewTextureFromBytes]. *)
Record ImageEnv := {
  generate_result : GenerateOutcome;
  DecodeString : string -> string + list Byte.byte;
  write_result : WriteOutcome;
  texture_err : option string
}.

(** One call of [copyImageFile]: the errors of [os.MkdirAll], [os.Open] and
    [os.Rename] if any, the random part of the name [os.CreateTemp] picks (or
    its error), the size of the buffer [io.Copy] moves at a time, and, if the
    copy fails, after how many buffers and with which error. *)
Record CopyEnv := {
  mkdir_err : option string;
  open_err : option string;
  temp_rand : string + string;
  copy_buf : nat;
  copy_fail : option (nat * string);
  rename_err : option string
}.

(** [gtk.ResponseAccept]. *)
Definition ResponseAccept : Z := -3.

(** One call of [onSaveImage]: [os.UserHomeDir], whether [os.Stat] finds the
    Pictures directory, the response of the file chooser, the path of
    [dialog.File] if there is one, and the copy. *)
Record SaveEnv := {
  home_dir : option string;
  pictures_found : bool;
  response : Z;
  chosen_file : option string;
  copy : CopyEnv
}.

(** ** Events *)

Inductive Thread := UIThread | Goroutine.

(** Calls into the toolkit. *)
Inductive UiAction :=
| ChatAppend (text : string)
| LabelSetText (label : nat) (text : string)
| InputSetText (text : string)
| ScrollToBottom
| StatusSetText (message : string)
| SpinnerStart
| SpinnerStop
| SetPaintable (paintable : option Texture)
| DialogSetCurrentFolder (path : string)
| DialogShow
| DialogDestroy.

(** Calls into the file system. *)
Inductive FsOp :=
| MkdirAll (path : string) (err : option string)
| WriteFile (path : string) (data : list Byte.byte) (r : WriteOutcome)
| Open (path : string) (err : option string)
| CreateTemp (path : string) (err : option string)
| Write (path : string) (chunk : list Byte.byte)
| Rename (oldpath newpath : string) (err : option string)
| Remove (path : string).

(** The closures handed to [glib.IdleAdd].  A closure that mentions the
    goroutine's variable [response] holds the variable, not its value. *)
Inductive Callback :=
| AssistantLabelUpdate (assistantLabel : nat) (response : nat)
| AssistantMessageAdd (response : nat)
| ApiError (err : string)
| SaveResponseError
| ImageResult (env : ImageEnv)
| NoFileSelected
| SaveResult (err : option string) (path : string).

Inductive Action :=
| UiAct (a : UiAction)
| DbExec (role content : string) (r : ExecOutcome)
| DbQuery (err : option string)
| NewStreaming (params : ChatCompletionNewParams)
| StreamNext (evt : option ChatCompletionChunk)
| StreamErr (err : option string)
| ImagesGenerate (params : ImageGenerateParams) (r : GenerateOutcome)
| FsAct (op : FsOp)
| IdleAdd (cb : Callback)
| ChanReceive (response : Z)
| DialogFile (file : option string).

Record Event := { thread : Thread; action : Action }.

(** ** The application state *)

(** The fields of the Go struct [App] the handlers read or write; a widget
    is what it shows.  [chatHistory] holds the texts of the labels appended to
    the box, a label being known by its position. *)
Record App := {
  chatHistory : list string;
  chatInput : string;
  modelCombo : string;
  tempScale : Q;
  imageDisplay : option Texture;
  imagePrompt : string;
  imageSpinner : bool;
  statusBar : string;
  saveDialog : bool;
  db : Store.DB
}.

(** The process and its surroundings: the application, the files, the
    variables that closures share with their goroutine, the closures queued
    for the main loop, how many of them the main loop runs each time a
    goroutine is about to take a step, the thread running now, and what
    [os.UserConfigDir] and [os.TempDir] return. *)
Record World := {
  app : App;
  files : gmap string (list Byte.byte);
  vars : list string;
  idle : list Callback;
  sched : list nat;
  cur : Thread;
  userConfigDir : option string;
  tempDir : string
}.

Definition with_app (f : App -> App) (w : World) : World :=
  {| app := f (app w); files := files w; vars := vars w; idle := idle w;
     sched := sched w; cur := cur w;
     userConfigDir := userConfigDir w; tempDir := tempDir w |}.

Definition with_files (f : gmap string (list Byte.byte) -> gmap string (list Byte.byte))
    (w : World) : World :=
  {| app := app w; files := f (files w); vars := vars w; idle := idle w;
     sched := sched w; cur := cur w;
     userConfigDir := userConfigDir w; tempDir := tempDir w |}.

Definition with_vars (f : list string -> list string) (w : World) : World :=
  {| app := app w; files := files w; vars := f (vars w); idle := idle w;
     sched := sched w; cur := cur w;
     userConfigDir := userConfigDir w; tempDir := tempDir w |}.

Definition with_idle (f : list Callback -> list Callback) (w : World) : World :=
  {| app := app w; files := files w; vars := vars w; idle := f (idle w);
     sched := sched w; cur := cur w;
     userConfigDir := userConfigDir w; tempDir := tempDir w |}.

Definition with_sched (s : list nat) (w : World) : World :=
  {| app := app w; files := files w; vars := vars w; idle := idle w;
     sched := s; cur := cur w;
     userConfigDir := userConfigDir w; tempDir := tempDir w |}.

Definition with_cur (t : Thread) (w : World) : World :=
  {| app := app w; files := files w; vars := vars w; idle := idle w;
     sched := sched w; cur := t;
     userConfigDir := userConfigDir w; tempDir := tempDir w |}.

(** What a toolkit call does to the widgets.  [SetText] on a label that is
    not in the box changes nothing. *)
Definition apply_ui (a : UiAction) (s : App) : App :=
  let mk h i p sp st dl :=
    {| chatHistory := h; chatInput := i; modelCombo := modelCombo s;
       tempScale := tempScale s; imageDisplay := p;
       imagePrompt := imagePrompt s; imageSpinner := sp; statusBar := st;
       saveDialog := dl; db := db s |} in
  let h := chatHistory s in
  let i := chatInput s in
  let p := imageDisplay s in
  let sp := imageSpinner s in
  let st := statusBar s in
  let dl := saveDialog s in
  match a with
  | ChatAppend text => mk (h ++ [text]) i p sp st dl
  | LabelSetText label text => mk (<[label := text]> h) i p sp st dl
  | InputSetText text => mk h text p sp st dl
  | ScrollToBottom => s
  | StatusSetText message => mk h i p sp message dl
  | SpinnerStart => mk h i p true st dl
  | SpinnerStop => mk h i p false st dl
  | SetPaintable paintable => mk h i paintable sp st dl
  | DialogSetCurrentFolder _ => s
  | DialogShow => mk h i p sp st true
  | DialogDestroy => mk h i p sp st false
  end.

Definition with_db (f : Store.DB -> Store.DB) (s : App) : App :=
  {| chatHistory := chatHistory s; chatInput := chatInput s;
     modelCombo := modelCombo s; tempScale := tempScale s;
     imageDisplay := imageDisplay s; imagePrompt := imagePrompt s;
     imageSpinner := imageSpinner s; statusBar := statusBar s;
     saveDialog := saveDialog s; db := f (db s) |}.

(** What a file-system call does to the files.  Directories hold no
    contents, so [MkdirAll] and [Open] leave the files as they are; a call
    that returned an error did nothing, except a write that failed half way. *)
Definition apply_fs (op : FsOp) (fs : gmap string (list Byte.byte))
    : gmap string (list Byte.byte) :=
  match op with
  | MkdirAll _ _ => fs
  | WriteFile path data Written => <[path := data]> fs
  | WriteFile path data (NotOpened _) => fs
  | WriteFile path data (Short n _) => <[path := take n data]> fs
  | Open _ _ => fs
  | CreateTemp path None => <[path := []]> fs
  | CreateTemp path (Some _) => fs
  | Write path chunk =>
      match fs !! path with
      | Some old => <[path := old ++ chunk]> fs
      | None => fs
      end
  | Rename oldpath newpath None =>
      match fs !! oldpath with
      | Some data => <[newpath := data]> (delete oldpath fs)
      | None => fs
      end
  | Rename _ _ (Some _) => fs
  | Remove path => delete path fs
  end.

(** ** The monad of handlers

    A computation takes the world and returns its result, the world it
    leaves and the events it performed, oldest first.  No result means the
    process panicked: everything stops there. *)
Definition M (A : Type) : Type := World -> option A * World * list Event.

Global Instance M_ret : MRet M := fun A (a : A) (w : World) => (Some a, w, []).

Global Instance M_bind : MBind M := fun A B (f : A -> M B) (m : M A) (w : World) =>
  match m w with
  | (Some a, w1, e1) =>
      match f a w1 with
      | (r, w2, e2) => (r, w2, e1 ++ e2)
      end
  | (None, w1, e1) => (None, w1, e1)
  end.

Definition ret {A} (a : A) : M A := mret a.

Definition panic {A} : M A := fun w => (None, w, []).

Definition gets {A} (f : World -> A) : M A := fun w => (Some (f w), w, []).

Definition modify (f : World -> World) : M unit := fun w => (Some tt, f w, []).

(** An event is performed by the thread that is running. *)
Definition emit (a : Action) : M unit :=
  fun w => (Some tt, w, [ {| thread := cur w; action := a |} ]).

Definition world_of {A} (r : option A * World * list Event) : World := snd (fst r).
Definition events_of {A} (r : option A * World * list Event) : list Event := snd r.
Definition result_of {A} (r : option A * World * list Event) : option A := fst (fst r).

(** *** Primitive operations *)

Definition ui (a : UiAction) : M unit :=
  modify (with_app (apply_ui a)) ;; emit (UiAct a).

(** [gtk.NewLabel(text)] and [a.chatHistory.Append(label)]: the label is its
    position in the box. *)
Definition appendLabel (text : string) : M nat :=
  label ← gets (fun w => length (chatHistory (app w)));
  ui (ChatAppend text) ;;
  ret label.

(** [a.db.Exec("INSERT INTO messages (role, content) VALUES (?, ?)", role, content)];
    the result is the error. *)
Definition dbExec (role content : string) (r : ExecOutcome) : M (option string) :=
  match r with
  | ExecOk now =>
      modify (with_app (with_db (Store.insert now role content))) ;;
      emit (DbExec role content r) ;;
      ret None
  | ExecErr msg =>
      emit (DbExec role content r) ;;
      ret (Some msg)
  end.

Definition fs_do (op : FsOp) : M unit :=
  modify (with_files (apply_fs op)) ;; emit (FsAct op).

(** [glib.IdleAdd]: the closure goes to the back of the queue. *)
Definition idleAdd (cb : Callback) : M unit :=
  modify (with_idle (fun q => q ++ [cb])) ;; emit (IdleAdd cb).

(** A variable that closures capture. *)
Definition newVar (s : string) : M nat :=
  v ← gets (fun w => length (vars w));
  modify (with_vars (fun vs => vs ++ [s])) ;;
  ret v.

Definition readVar (v : nat) : M string :=
  gets (fun w => default "" (vars w !! v)).

(** [v += s]. *)
Definition appendVar (v : nat) (s : string) : M unit :=
  old ← readVar v;
  modify (with_vars (fun vs => <[v := old +:+ s]> vs)).

(** *** Paths *)

(** [filepath.Join] of two clean elements. *)
Definition filepath_Join (dir name : string) : string := dir +:+ "/" +:+ name.

(** [filepath.Dir] of a clean path: the path without its last element and
    the separator before it. *)
Fixpoint drop_last_element (s : string) : option string :=
  match s with
  | EmptyString => None
  | String c rest =>
      match drop_last_element rest with
      | Some d => Some (String c d)
      | None => if Ascii.eqb c (Ascii.ascii_of_nat 47) then Some EmptyString else None
      end
  end.

Definition filepath_Dir (path : string) : string :=
  match drop_last_element path with
  | None => "."
  | Some EmptyString => "/"
  | Some d => d
  end.

(** [strings.ToLower] on ASCII letters. *)
Definition lower_ascii (c : Ascii.ascii) : Ascii.ascii :=
  let n := Ascii.nat_of_ascii c in
  if ((65 <=? n) && (n <=? 90))%nat then Ascii.ascii_of_nat (n + 32) else c.

Fixpoint strings_ToLower (s : string) : string :=
  match s with
  | EmptyString => EmptyString
  | String c rest => String (lower_ascii c) (strings_ToLower rest)
  end.

(** [strings.HasSuffix]. *)
Definition strings_HasSuffix (s suffix : string) : bool :=
  let n := String.length s in
  let k := String.length suffix in
  ((k <=? n)%nat && String.eqb (String.substring (n - k) k s) suffix)%bool.

(** *** Methods that both versions share *)

Definition setStatus (message : string) : M unit :=
  ui (StatusSetText message).

Definition addMessageToUI (role content : string) : M unit :=
  ui (ChatAppend (role +:+ ": " +:+ content)) ;;
  ui ScrollToBottom.

Definition configDir : M string :=
  configDir ← gets userConfigDir;
  match configDir with
  | None => gets tempDir
  | Some configDir =>
      let appDir := filepath_Join configDir "openai-gtk" in
      fs_do (MkdirAll appDir None) ;;
      ret appDir
  end.



(** *** The main loop and the closures it runs *)

(** The body of the closure [onGenerateImage] queues, the same in both
    versions. *)
Definition imageResult (env : ImageEnv) : M unit :=
  ui SpinnerStop ;;
  match generate_result env with
  | GenerateErr err => setStatus ("Image Generation Error: " +:+ err)
  | GenerateOk Data =>
      match Data with
      | [] => panic
      | B64JSON :: _ =>
          match DecodeString env B64JSON with
          | inl err => setStatus ("Image Decode Error: " +:+ err)
          | inr imageBytes =>
              dir ← configDir;
              let tempFile := filepath_Join dir "temp.png" in
              fs_do (WriteFile tempFile imageBytes (write_result env)) ;;
              match write_result env with
              | NotOpened err | Short _ err => setStatus ("File Error: " +:+ err)
              | Written =>
                  match texture_err env with
                  | Some err => setStatus ("Error creating texture: " +:+ err)
                  | None =>
                      ui (SetPaintable (Some {| texture_bytes := imageBytes |})) ;;
                      setStatus "Image generated successfully"
                  end
              end
          end
      end
  end.

Definition run_callback (cb : Callback) : M unit :=
  match cb with
  | AssistantLabelUpdate assistantLabel response =>
      r ← readVar response;
      ui (LabelSetText assistantLabel ("assistant: " +:+ r)) ;;
      ui ScrollToBottom
  | AssistantMessageAdd response =>
      r ← readVar response;
      addMessageToUI "assistant" r
  | ApiError err => setStatus ("API Error: " +:+ err)
  | SaveResponseError => setStatus "Error saving response"
  | ImageResult env => imageResult env
  | NoFileSelected => setStatus "Error: No file selected"
  | SaveResult err path =>
      match err with
      | Some err => setStatus ("Error saving image: " +:+ err)
      | None => setStatus ("Image saved to: " +:+ path)
      end
  end.

(** The main loop takes up to [n] closures from the front of the queue and
    runs them. *)
Fixpoint run_idle (n : nat) : M unit :=
  match n with
  | O => ret tt
  | S k =>
      q ← gets idle;
      match q with
      | [] => ret tt
      | cb :: rest =>
          modify (with_idle (fun _ => rest)) ;;
          run_callback cb ;;
          run_idle k
      end
  end.

(** The main loop runs until the queue is empty. *)
Definition main_loop : M unit :=
  n ← gets (fun w => length (idle w));
  run_idle n.

(** Before a goroutine takes a step the main loop may run: the schedule says
    how many queued closures it runs this time. *)
Definition preempt : M unit :=
  s ← gets sched;
  match s with
  | [] => ret tt
  | n :: rest =>
      t ← gets cur;
      modify (with_sched rest) ;;
      modify (with_cur UIThread) ;;
      run_idle n ;;
      modify (with_cur t)
  end.

(** A step of a goroutine. *)
Definition bg {A} (m : M A) : M A := preempt ;; m.

(** [go func() { body }()]: [body] runs as a goroutine.  The handlers end
    with their [go] statement, so nothing of the caller is left to run
    beside it. *)
Definition go_ (body : M unit) : M unit :=
  t ← gets cur;
  modify (with_cur Goroutine) ;;
  body ;;
  modify (with_cur t).

(** ** Saving the image *)

(** The buffers [io.Copy] moves: [data] cut into pieces of [n] bytes (of one
    byte when [n] is 0). *)
Fixpoint buffers_fuel (fuel n : nat) (data : list Byte.byte) : list (list Byte.byte) :=
  match fuel with
  | O => []
  | S fuel' =>
      match data with
      | [] => []
      | _ :: _ => take (S (pred n)) data :: buffers_fuel fuel' n (drop (S (pred n)) data)
      end
  end.

Definition buffers (n : nat) (data : list Byte.byte) : list (list Byte.byte) :=
  buffers_fuel (length data) n data.

(** [io.Copy(tmpFile, srcFile)]: buffer after buffer is written to the
    temporary file; the result is the error. *)
Fixpoint ioCopy (tmpPath : string) (bufs : list (list Byte.byte))
    (fail : option (nat * string)) : M (option string) :=
  match fail with
  | Some (O, err) => ret (Some err)
  | _ =>
      match bufs with
      | [] => ret None
      | buf :: rest =>
          bg (fs_do (Write tmpPath buf));;
          ioCopy tmpPath rest
            (match fail with
             | Some (S n, err) => Some (n, err)
             | _ => None
             end)
      end
  end.

(** [copyImageFile(src, dest)]; the result is the error.  The deferred
    [os.Remove(tmpPath)] runs on every return that follows [os.CreateTemp]. *)
Definition copyImageFile (env : CopyEnv) (src dest : string) : M (option string) :=
  bg (fs_do (MkdirAll (filepath_Dir dest) (mkdir_err env)));;
  match mkdir_err env with
  | Some err => ret (Some ("failed to create directory: " +:+ err))
  | None =>
      srcFile ← bg (gets (fun w => files w !! src));
      let opened :=
        match open_err env, srcFile with
        | Some err, _ => inl err
        | None, None => inl ("open " +:+ src +:+ ": no such file or directory")
        | None, Some data => inr data
        end in
      match opened with
      | inl err =>
          emit (FsAct (Open src (Some err)));;
          ret (Some ("failed to open source file: " +:+ err))
      | inr data =>
          emit (FsAct (Open src None));;
          taken ← bg (gets (fun w => files w));
          let created :=
            match temp_rand env with
            | inl err => inl err
            | inr rand =>
                let tmpPath := filepath_Join (filepath_Dir dest) (rand +:+ ".png") in
                match taken !! tmpPath with
                | Some _ => inl ("open " +:+ tmpPath +:+ ": file exists")
                | None => inr tmpPath
                end
            end in
          match created with
          | inl err =>
              emit (FsAct (CreateTemp (filepath_Dir dest) (Some err)));;
              ret (Some ("failed to create temporary file: " +:+ err))
          | inr tmpPath =>
              fs_do (CreateTemp tmpPath None);;
              result ←
                (copied ← ioCopy tmpPath (buffers (copy_buf env) data) (copy_fail env);
                 match copied with
                 | Some err => ret (Some ("failed to copy image data: " +:+ err))
                 | None =>
                     bg (fs_do (Rename tmpPath dest (rename_err env)));;
                     match rename_err env with
                     | Some err => ret (Some ("failed to save image: " +:+ err))
                     | None => ret None
                     end
                 end);
              bg (fs_do (Remove tmpPath));;
              ret result
          end
      end
  end.

(** [onSaveImage], the same in both versions. *)
Definition onSaveImage (env : SaveEnv) : M unit :=
  match home_dir env with
  | Some homeDir =>
      if pictures_found env
      then ui (DialogSetCurrentFolder (filepath_Join homeDir "Pictures"))
      else ret tt
  | None => ret tt
  end;;
  ui DialogShow;;
  go_ (
    bg (emit (ChanReceive (response env)));;
    if decide (response env = ResponseAccept) then
      bg (emit (DialogFile (chosen_file env)));;
      match chosen_file env with
      | None => bg (idleAdd NoFileSelected)
      | Some path =>
          let path :=
            if strings_HasSuffix (strings_ToLower path) ".png"
            then path else path +:+ ".png" in
          dir ← bg configDir;
          let tempFile := filepath_Join dir "temp.png" in
          go_ (
            err ← copyImageFile (copy env) tempFile path;
            bg (idleAdd (SaveResult err path)));;
          bg (ui DialogDestroy)
      end
    else
      bg (ui DialogDestroy)).

(** ** The first version of the handlers (lines 316 to 438 of app.go) *)
Module First.

Fixpoint stream_loop (assistantLabel response : nat)
    (events : list ChatCompletionChunk) : M unit :=
  match events with
  | [] => bg (emit (StreamNext None))
  | evt :: rest =>
      bg (emit (StreamNext (Some evt)));;
      match Choices evt with
      | [] => ret tt
      | delta :: _ =>
          bg (appendVar response delta);;
          bg (idleAdd (AssistantLabelUpdate assistantLabel response))
      end;;
      stream_loop assistantLabel response rest
  end.

Definition onSendMessage (env : SendEnv) : M unit :=
  text ← gets (fun w => chatInput (app w));
  if decide (text = "") then ret tt else
  appendLabel ("user: " +:+ text);;
  ui (InputSetText "");;
  err ← dbExec "user" text (user_exec env);
  match err with
  | Some _ => setStatus "Error saving message"
  | None =>
      assistantLabel ← appendLabel "assistant: ";
      ui ScrollToBottom;;
      go_ (
        bg (emit (NewStreaming
          {| Messages := [UserMessage text];
             Model := ChatModelGPT4oMini;
             Temperature := None |}));;
        response ← bg (newVar "");
        stream_loop assistantLabel response (stream env);;
        bg (emit (StreamErr (stream_err env)));;
        match stream_err env with
        | Some err => bg (idleAdd (ApiError err))
        | None =>
            r ← readVar response;
            err ← bg (dbExec "assistant" r (assistant_exec env));
            match err with
            | Some _ => bg (idleAdd SaveResponseError)
            | None => ret tt
            end
        end)
  end.

Definition onGenerateImage (env : ImageEnv) : M unit :=
  prompt ← gets (fun w => imagePrompt (app w));
  if decide (prompt = "") then ret tt else
  ui SpinnerStart;;
  ui (SetPaintable None);;
  go_ (
    bg (emit (ImagesGenerate
      {| Prompt := prompt;
         ImageModel := ImageModelDallE2;
         ResponseFormat := ImageGenerateParamsResponseFormatB64JSON;
         N := 1 |} (generate_result env)));;
    bg (idleAdd (ImageResult env))).

End First.

(** ** The second version of the handlers (lines 890 to 994 of app.go) *)
Module Second.

Fixpoint stream_loop (response : nat) (events : list ChatCompletionChunk) : M unit :=
  match events with
  | [] => bg (emit (StreamNext None))
  | evt :: rest =>
      bg (emit (StreamNext (Some evt)));;
      match Choices evt with
      | [] => ret tt
      | delta :: _ =>
          bg (appendVar response delta);;
          bg (idleAdd (AssistantMessageAdd response))
      end;;
      stream_loop response rest
  end.

Definition onSendMessage (env : SendEnv) : M unit :=
  text ← gets (fun w => chatInput (app w));
  if decide (text = "") then ret tt else
  addMessageToUI "user" text;;
  ui (InputSetText "");;
  err ← dbExec "user" text (user_exec env);
  match err with
  | Some _ => setStatus "Error saving message"
  | None =>
      go_ (
        bg (emit (NewStreaming
          {| Messages := [UserMessage text];
             Model := ChatModelGPT4o;
             Temperature := None |}));;
        response ← bg (newVar "");
        stream_loop response (stream env);;
        bg (emit (StreamErr (stream_err env)));;
        match stream_err env with
        | Some err => bg (idleAdd (ApiError err))
        | None =>
            r ← readVar response;
            err ← bg (dbExec "assistant" r (assistant_exec env));
            match err with
            | Some _ => bg (idleAdd SaveResponseError)
            | None => ret tt
            end
        end)
  end.

Definition onGenerateImage (env : ImageEnv) : M unit :=
  prompt ← gets (fun w => imagePrompt (app w));
  if decide (prompt = "") then ret tt else
  ui SpinnerStart;;
  ui (SetPaintable None);;
  go_ (
    bg (emit (ImagesGenerate
      {| Prompt := prompt;
         ImageModel := ImageModelDallE3;
         ResponseFormat := ImageGenerateParamsResponseFormatB64JSON;
         N := 1 |} (generate_result env)));;
    bg (idleAdd (ImageResult env))).

End Second.

(** ** Vocabulary of the properties *)

(** The INSERTs a run issued, in order: role, content and outcome. *)
Definition db_exec_of (e : Event) : option (string * string * ExecOutcome) :=
  match action e with
  | DbExec role content r => Some (role, content, r)
  | _ => None
  end.

Definition db_execs (evs : list Event) : list (string * string * ExecOutcome) :=
  omap db_exec_of evs.

(** The streaming requests a run opened. *)
Definition request_of (e : Event) : option ChatCompletionNewParams :=
  match action e with
  | NewStreaming params => Some params
  | _ => None
  end.

Definition requests (evs : list Event) : list ChatCompletionNewParams :=
  omap request_of evs.

(** Network I/O: a request to a service or a read from a stream. *)
Definition is_network (e : Event) : bool :=
  match action e with
  | NewStreaming _ | StreamNext _ | StreamErr _ | ImagesGenerate _ _ => true
  | _ => false
  end.

Definition network_events (evs : list Event) : list Event :=
  List.filter is_network evs.

(** The events of a run that precede its first network I/O. *)
Fixpoint before_network (evs : list Event) : list Event :=
  match evs with
  | [] => []
  | e :: rest => if is_network e then [] else e :: before_network rest
  end.

(** The closures a run handed to the main loop. *)
Definition idle_add_of (e : Event) : option Callback :=
  match action e with
  | IdleAdd cb => Some cb
  | _ => None
  end.

Definition idle_adds (evs : list Event) : list Callback := omap idle_add_of evs.

(** The texts of the labels a run appended to the chat box. *)
Definition chat_append_of (e : Event) : option string :=
  match action e with
  | UiAct (ChatAppend text) => Some text
  | _ => None
  end.

Definition chat_appends (evs : list Event) : list string := omap chat_append_of evs.

Fixpoint starts_with (prefix s : string) : bool :=
  match prefix with
  | EmptyString => true
  | String a prefix' =>
      match s with
      | EmptyString => false
      | String b s' => Ascii.eqb a b && starts_with prefix' s'
      end
  end.

Definition is_assistant_text (s : string) : bool := starts_with "assistant: " s.

(** The delta a chunk contributes: the content of its first choice, nothing
    when it has no choice. *)
Definition delta_of (evt : ChatCompletionChunk) : string :=
  match Choices evt with
  | [] => ""
  | delta :: _ => delta
  end.

(** The deltas of the chunks, concatenated in arrival order. *)
Definition deltas (events : list ChatCompletionChunk) : string :=
  String.concat "" (map delta_of events).

(** The only closure that can panic is an image result with no image in it
    ([result.Data[0]]). *)
Definition callback_safe (cb : Callback) : bool :=
  match cb with
  | ImageResult env =>
      match generate_result env with
      | GenerateOk [] => false
      | _ => true
      end
  | _ => true
  end.

Definition pending_safe (w : World) : Prop :=
  forallb callback_safe (idle w) = true.

(** Toolkit calls that change what the window shows of the conversation, the
    image and the status. *)
Definition changes_display (a : UiAction) : bool :=
  match a with
  | ChatAppend _ | LabelSetText _ _ | StatusSetText _ | SetPaintable _
  | InputSetText _ | SpinnerStart | SpinnerStop | ScrollToBottom => true
  | DialogSetCurrentFolder _ | DialogShow | DialogDestroy => false
  end.

(** Every toolkit call. *)
Definition any_call (a : UiAction) : bool := true.

(** The event [e] respects the thread rule for the toolkit calls in
    [marshalled]: if it is one of them, the UI thread made it. *)
Definition on_ui_thread (marshalled : UiAction -> bool) (e : Event) : Prop :=
  match action e with
  | UiAct a => marshalled a = true -> thread e = UIThread
  | _ => True
  end.

(** The files after the file-system calls of a run, or of the part of a run
    that happened before the process was stopped. *)
Definition replay_fs (evs : list Event) (fs : gmap string (list Byte.byte))
    : gmap string (list Byte.byte) :=
  fold_left (fun fs e =>
    match action e with
    | FsAct op => apply_fs op fs
    | _ => fs
    end) evs fs.

Definition is_rename (e : Event) : bool :=
  match action e with
  | FsAct (Rename _ _ _) => true
  | _ => false
  end.

(** ** Reasoning about runs *)

(** [wp m Q w]: from [w], [m] returns (it does not panic) and its result, the
    world it leaves and its events satisfy [Q]. *)
Definition wp {A} (m : M A) (Q : A -> World -> list Event -> Prop) (w : World) : Prop :=
  match m w with
  | (Some a, w', evs) => Q a w' evs
  | (None, _, _) => False
  end.

(** What the main loop may have done while a goroutine was waiting: it ran
    closures from the front of the queue.  Closures touch neither the store
    nor the variables of goroutines, and open no request. *)
Record interference (w w' : World) (evs : list Event) : Prop := {
  itf_db : db (app w') = db (app w);
  itf_vars : vars w' = vars w;
  itf_cur : cur w' = cur w;
  itf_idle : exists k, idle w' = drop k (idle w);
  itf_execs : db_execs evs = [];
  itf_requests : requests evs = [];
  itf_network : network_events evs = [];
  itf_adds : idle_adds evs = [];
  itf_appends : forallb is_assistant_text (chat_appends evs) = true
}.

(** What a call of [onSendMessage] did when the store accepted the user
    row at clock reading [now] and the request [req] was opened. *)
Record sent (req : ChatCompletionNewParams) (env : SendEnv) (text : string) (now : Z)
    (w w' : World) (evs : list Event) : Prop := {
  sent_execs :
    db_execs evs =
      ("user", text, ExecOk now) ::
      match stream_err env with
      | None => [("assistant", deltas (stream env), assistant_exec env)]
      | Some _ => []
      end;
  sent_execs_first : db_execs (before_network evs) = [("user", text, ExecOk now)];
  sent_label_first : In ("user: " +:+ text) (chat_appends (before_network evs));
  sent_labels :
    List.filter (fun s => negb (is_assistant_text s)) (chat_appends evs)
      = ["user: " +:+ text];
  sent_requests : requests evs = [req];
  sent_db :
    db (app w') =
      match stream_err env, assistant_exec env with
      | None, ExecOk now' =>
          Store.insert now' "assistant" (deltas (stream env))
            (Store.insert now "user" text (db (app w)))
      | _, _ => Store.insert now "user" text (db (app w))
      end;
  sent_idle :
    match stream_err env, assistant_exec env with
    | Some err, _ =>
        exists q, idle w' = q ++ [ApiError err] /\ In (ApiError err) (idle_adds evs)
    | None, ExecErr _ =>
        exists q, idle w' = q ++ [SaveResponseError] /\ In SaveResponseError (idle_adds evs)
    | None, ExecOk _ => True
    end;
  sent_safe : pending_safe w';
  sent_cur : cur w' = cur w
}.

(** The status a closure leaves in the status bar, for the closures that
    only set the status. *)
Definition status_of (cb : Callback) : option string :=
  match cb with
  | ApiError err => Some ("API Error: " +:+ err)
  | SaveResponseError => Some "Error saving response"
  | NoFileSelected => Some "Error: No file selected"
  | SaveResult (Some err) _ => Some ("Error saving image: " +:+ err)
  | SaveResult None path => Some ("Image saved to: " +:+ path)
  | _ => None
  end.

Definition assistant_rows (d : Store.DB) : list Store.Message :=
  List.filter (fun m => String.eqb (Store.role m) "assistant") d.

Definition user_execs (evs : list Event) : list (string * string * ExecOutcome) :=
  List.filter (fun x => String.eqb (fst (fst x)) "user") (db_execs evs).

(** ** Concrete runs *)

(** A window in which the user typed "Hello", picked the second model of
    the selector and moved the temperature to 1.5, with an image on
    display. *)
Definition example_app : App :=
  {| chatHistory := []; chatInput := "Hello"; modelCombo := "gpt-4o";
     tempScale := 3 # 2;
     imageDisplay := Some {| texture_bytes := [Byte.x89; Byte.x50] |};
     imagePrompt := "cat"; imageSpinner := false; statusBar := "";
     saveDialog := false; db := [] |}.

Definition example_world : World :=
  {| app := example_app; files := ∅; vars := []; idle := [];
     sched := [0%nat; 0%nat; 0%nat; 0%nat; 1%nat; 5%nat]; cur := UIThread;
     userConfigDir := Some "/home/user/.config"; tempDir := "/tmp" |}.

Definition example_chunks : list ChatCompletionChunk :=
  [ {| Choices := ["Hi"] |}; {| Choices := [] |}; {| Choices := [" there"] |} ].

Definition stream_completes : SendEnv :=
  {| user_exec := ExecOk 1700000000; stream := example_chunks;
     stream_err := None; assistant_exec := ExecOk 1700000002 |}.


Definition stream_breaks : SendEnv :=
  {| user_exec := ExecOk 1700000000; stream := [ {| Choices := ["Hi"] |} ];
     stream_err := Some "unexpected EOF"; assistant_exec := ExecOk 1700000002 |}.

Definition store_rejects_reply : SendEnv :=
  {| user_exec := ExecOk 1700000000; stream := example_chunks;
     stream_err := None; assistant_exec := ExecErr "database is locked" |}.

Definition store_rejects_user : SendEnv :=
  {| user_exec := ExecErr "database is locked"; stream := example_chunks;
     stream_err := None; assistant_exec := ExecOk 1700000002 |}.

(** The file-system calls of a run. *)
Definition fs_op_of (e : Event) : option FsOp :=
  match action e with
  | FsAct op => Some op
  | _ => None
  end.

Definition fs_ops (evs : list Event) : list FsOp := omap fs_op_of evs.

Definition image_request_fails : ImageEnv :=
  {| generate_result := GenerateErr "429 Too Many Requests";
     DecodeString := fun _ => inl "illegal base64 data at input byte 0";
     write_result := Written; texture_err := None |}.

Definition image_decode_fails : ImageEnv :=
  {| generate_result := GenerateOk ["!!!"];
     DecodeString := fun _ => inl "illegal base64 data at input byte 0";
     write_result := Written; texture_err := None |}.

Definition image_write_fails : ImageEnv :=
  {| generate_result := GenerateOk ["iVA="];
     DecodeString := fun _ => inr [Byte.x89; Byte.x50];
     write_result := NotOpened "permission denied"; texture_err := None |}.

(** The two versions of [onGenerateImage] differ in the model they name and
    in nothing else. *)
Definition onGenerateImage_for (model : string) (env : ImageEnv) : M unit :=
  prompt ← gets (fun w => imagePrompt (app w));
  if decide (prompt = "") then ret tt else
  ui SpinnerStart;;
  ui (SetPaintable None);;
  go_ (
    bg (emit (ImagesGenerate
      {| Prompt := prompt;
         ImageModel := model;
         ResponseFormat := ImageGenerateParamsResponseFormatB64JSON;
         N := 1 |} (generate_result env)));;
    bg (idleAdd (ImageResult env))).

(** The world in which the closure of [onGenerateImage] runs when nothing
    else was queued: the spinner was started, the picture cleared, and the
    schedule has moved on. *)
Definition generating (s : list nat) (w : World) : World :=
  with_sched s
    (with_app (apply_ui (SetPaintable None))
       (with_app (apply_ui SpinnerStart) w)).

Definition generation_events (model : string) (env : ImageEnv) (w : World) : list Event :=
  [ {| thread := cur w; action := UiAct SpinnerStart |};
    {| thread := cur w; action := UiAct (SetPaintable None) |};
    {| thread := Goroutine;
       action := ImagesGenerate
         {| Prompt := imagePrompt (app w); ImageModel := model;
            ResponseFormat := ImageGenerateParamsResponseFormatB64JSON;
            N := 1 |} (generate_result env) |};
    {| thread := Goroutine; action := IdleAdd (ImageResult env) |} ].

(** What a failed generation leaves behind: the status, the picture, the
    spinner. *)
Record generation_failed (message : string) (w : World)
    (r : option unit * World * list Event) : Prop := {
  gf_returns : result_of r = Some tt;
  gf_status : statusBar (app (world_of r)) = message;
  gf_published :
    In {| thread := cur w; action := UiAct (StatusSetText message) |} (events_of r);
  gf_image : imageDisplay (app (world_of r)) = None;
  gf_spinner : imageSpinner (app (world_of r)) = false
}.

(** What the loop over the stream leaves behind: the variable [response]
    has grown by the deltas, in arrival order; the store is untouched. *)
Record streamed (response : nat) (acc : string) (events : list ChatCompletionChunk)
    (w w' : World) (evs : list Event) : Prop := {
  str_db : db (app w') = db (app w);
  str_var : vars w' !! response = Some (acc +:+ deltas events);
  str_cur : cur w' = cur w;
  str_safe : pending_safe w';
  str_execs : db_execs evs = [];
  str_requests : requests evs = [];
  str_appends : forallb is_assistant_text (chat_appends evs) = true;
  str_adds : Forall (fun cb => callback_safe cb = true) (idle_adds evs)
}.


(** A file-system call touches a path when it can change what the path
    holds. *)
Definition touches (p : string) (op : FsOp) : bool :=
  match op with
  | MkdirAll _ _ | Open _ _ => false
  | WriteFile q _ (NotOpened _) => false
  | WriteFile q _ _ => bool_decide (q = p)
  | CreateTemp q None => bool_decide (q = p)
  | CreateTemp _ (Some _) => false
  | Write q _ => bool_decide (q = p)
  | Rename a b None => bool_decide (a = p) || bool_decide (b = p)
  | Rename _ _ (Some _) => false
  | Remove q => bool_decide (q = p)
  end.

(** Every event is a file-system call, and none but a rename touches
    [dest]. *)
Definition spares (dest : string) (e : Event) : Prop :=
  exists op, action e = FsAct op /\ (is_rename e = false -> touches dest op = false).

(** The path of the temporary file [copyImageFile] works on, when
    [os.CreateTemp] returns one. *)
Definition temp_path (env : CopyEnv) (dest : string) : option string :=
  match temp_rand env with
  | inl _ => None
  | inr rand => Some (filepath_Join (filepath_Dir dest) (rand +:+ ".png"))
  end.

(** What [io.Copy] leaves behind. *)
Record copied_buffers (tmpPath : string) (acc : list Byte.byte)
    (bufs : list (list Byte.byte)) (w : World)
    (res : option string) (w' : World) (evs : list Event) : Prop := {
  cb_idle : idle w' = [];
  cb_replay : files w' = replay_fs evs (files w);
  cb_events : Forall (fun e => exists buf, action e = FsAct (Write tmpPath buf)) evs;
  cb_others : forall p, p <> tmpPath -> files w' !! p = files w !! p;
  cb_partial : exists written, files w' !! tmpPath = Some (acc ++ written);
  cb_full : res = None -> files w' !! tmpPath = Some (acc ++ concat bufs)
}.

(** What a call of [copyImageFile] leaves behind. *)
Record copy_done (env : CopyEnv) (src dest : string) (w : World)
    (res : option string) (w' : World) (evs : list Event) : Prop := {
  cd_idle : idle w' = [];
  cd_replay : files w' = replay_fs evs (files w);
  cd_events : Forall (spares dest) evs;
  cd_failure : forall err, res = Some err -> files w' !! dest = files w !! dest;
  cd_success :
    res = None ->
    is_Some (files w !! src) /\
    files w' !! dest = files w !! src /\
    exists tmpPath, temp_path env dest = Some tmpPath /\ files w' !! tmpPath = None
}.

Definition cache_file : string := "/home/user/.config/openai-gtk/temp.png".

Definition world_with_cache : World :=
  with_files (fun _ => <[cache_file := [Byte.x89; Byte.x50; Byte.x4e]]>
                         (<["/home/user/Pictures/cat.png" := [Byte.x00]]> ∅))
    example_world.

Definition copy_succeeds : CopyEnv :=
  {| mkdir_err := None; open_err := None; temp_rand := inr "3175832007";
     copy_buf := 2; copy_fail := None; rename_err := None |}.


(** [affine marshalled t m]: run by thread [t], [m] makes every toolkit
    call in [marshalled] on the UI thread, and hands control back to [t]. *)
Definition affine {A} (marshalled : UiAction -> bool) (t : Thread) (m : M A) : Prop :=
  forall w, cur w = t ->
    Forall (on_ui_thread marshalled) (events_of (m w)) /\
    (result_of (m w) <> None -> cur (world_of (m w)) = t).

Definition save_accepted : SaveEnv :=
  {| home_dir := Some "/home/user"; pictures_found := true;
     response := ResponseAccept; chosen_file := Some "/home/user/Pictures/cat";
     copy := copy_succeeds |}.

(** ** Reload, display, saving and shutdown: vocabulary *)


(** The path of the cache file: [filepath.Join(a.configDir(), "temp.png")]. *)
Definition cache_path (w : World) : string :=
  filepath_Join
    (match userConfigDir w with
     | Some configDir => filepath_Join configDir "openai-gtk"
     | None => tempDir w
     end) "temp.png".

(** What a call of [onGenerateImage] leaves when the handler has returned:
    the spinner runs, the picture is empty, the closure with the answer waits
    in the queue. *)
Definition generation_queued (env : ImageEnv) (s : list nat) (w : World) : World :=
  with_idle (fun _ => [ImageResult env]) (generating s w).

Definition image_succeeds : ImageEnv :=
  {| generate_result := GenerateOk ["iVBO"];
     DecodeString := fun _ => inr [Byte.x89; Byte.x50; Byte.x4e];
     write_result := Written; texture_err := None |}.

Definition image_texture_fails : ImageEnv :=
  {| generate_result := GenerateOk ["AAAA"];
     DecodeString := fun _ => inr [Byte.x00; Byte.x00; Byte.x00];
     write_result := Written; texture_err := Some "Unknown image format" |}.

Definition image_answer_empty : ImageEnv :=
  {| generate_result := GenerateOk [];
     DecodeString := fun _ => inr [];
     write_result := Written; texture_err := None |}.

(** The path [onSaveImage] copies to: the chosen path, with ".png" added
    unless it ends in ".png" already, in upper or lower case. *)
Definition save_destination (path : string) : string :=
  if strings_HasSuffix (strings_ToLower path) ".png" then path else path +:+ ".png".

(** The status the closure of [onSaveImage] sets for the result of the
    copy. *)
Definition save_status (err : option string) (path : string) : string :=
  match err with
  | Some err => "Error saving image: " +:+ err
  | None => "Image saved to: " +:+ path
  end.

(** An invariant of the closures: running the closure at the front of the
    queue keeps it. *)
Definition closure_step (I : World -> Prop) : Prop :=
  forall w cb rest,
    I w -> idle w = cb :: rest ->
    wp (run_callback cb)
       (fun _ w' _ => I w' /\ idle w' = rest /\ cur w' = cur w /\ sched w' = sched w)
       (with_idle (fun _ => rest) w).

(** An invariant that looks at the application, the files, the variables and
    the queue only. *)
Definition observable (I : World -> Prop) : Prop :=
  forall w w',
    app w' = app w -> files w' = files w -> vars w' = vars w -> idle w' = idle w ->
    userConfigDir w' = userConfigDir w -> tempDir w' = tempDir w ->
    I w -> I w'.

(** [m] changes nothing but the files and the schedule. *)
Definition same_but_files (w w' : World) : Prop :=
  app w' = app w /\ vars w' = vars w /\ idle w' = idle w /\ cur w' = cur w /\
  userConfigDir w' = userConfigDir w /\ tempDir w' = tempDir w.

Definition keeps {A} (m : M A) : Prop :=
  forall w, idle w = [] -> wp m (fun _ w' _ => same_but_files w w') w.

(** One closure that sets the status is all that is or was queued: either
    it waits and the application is [shown], or it has run and the status of
    [shown] has become [message]. *)
Definition awaiting (cb : Callback) (message : string) (shown : App)
    (fs : gmap string (list Byte.byte)) (w : World) : Prop :=
  files w = fs /\
  ((idle w = [cb] /\ app w = shown) \/
   (idle w = [] /\ app w = apply_ui (StatusSetText message) shown)).

(** [copyImageFile] in the world it is called in by [onSaveImage]. *)
Definition saved (env : SaveEnv) (w : World) (path : string)
    (C : option string -> World -> Prop)
    (w' : World) : Prop :=
  exists res wcopy,
    C res wcopy /\
    files w' = files wcopy /\
    app w' = apply_ui (StatusSetText (save_status res (save_destination path)))
               (apply_ui DialogDestroy (apply_ui DialogShow (app w))) /\
    idle w' = [].

Definition save_cancelled : SaveEnv :=
  {| home_dir := Some "/home/user"; pictures_found := true;
     response := -6; chosen_file := None; copy := copy_succeeds |}.

Definition save_without_file : SaveEnv :=
  {| home_dir := None; pictures_found := false;
     response := ResponseAccept; chosen_file := None; copy := copy_succeeds |}.

(** The closures that only set the status: the two an exchange queues when
    it fails. *)
Definition sets_status (cb : Callback) : bool :=
  match cb with
  | ApiError _ | SaveResponseError => true
  | _ => false
  end.

Definition has_choice (evt : ChatCompletionChunk) : bool :=
  match Choices evt with
  | [] => false
  | _ :: _ => true
  end.

(** The first version while a reply streams.  [before] is what the chat
    showed when the label of the reply was appended, [response] the variable
    the goroutine collects the reply in and [r] what it holds.  The label is
    the last one; once no closure that updates it is waiting it shows
    "assistant: " and [r], unless the goroutine has added to the variable and
    not queued the closure yet ([behind]). *)
Definition updating (before : list string) (response : nat) (r : string)
    (behind : bool) (w : World) : Prop :=
  vars w !! response = Some r /\
  Forall (fun cb => sets_status cb = true \/
                    cb = AssistantLabelUpdate (length before) response) (idle w) /\
  exists shown,
    chatHistory (app w) = before ++ [shown] /\
    (forallb sets_status (idle w) = true -> behind = false ->
     shown = "assistant: " +:+ r).

(** The reply as it stood after some chunk of the stream. *)
Definition reply_so_far (events : list ChatCompletionChunk) (s : string) : Prop :=
  exists k : nat, s = deltas (take k events).

(** The second version while a reply streams: [n] closures that add a label
    have been queued, and each has run or is waiting. *)
Definition adding (before : list string) (response : nat)
    (events : list ChatCompletionChunk) (r : string) (n : nat)
    (behind : bool) (w : World) : Prop :=
  vars w !! response = Some r /\
  reply_so_far events r /\
  Forall (fun cb => sets_status cb = true \/
                    cb = AssistantMessageAdd response) (idle w) /\
  exists labels,
    chatHistory (app w) = before ++ labels /\
    (length labels
       + length (List.filter (fun cb => negb (sets_status cb)) (idle w)) = n)%nat /\
    Forall (fun t => exists s, reply_so_far events s /\ t = "assistant: " +:+ s)
           labels /\
    (forallb sets_status (idle w) = true -> behind = false -> n <> 0%nat ->
     last labels = Some ("assistant: " +:+ r)).


(** [cleanup] (lines 569 to 576 of app.go).  [a.db.Close()] leaves the rows
    as they are; the error of [os.Remove] is dropped. *)
Definition cleanup : M unit :=
  dir ← configDir;
  let tempFile := filepath_Join dir "temp.png" in
  fs_do (Remove tempFile).

(** * Properties *)

(** ** The message store *)

Section StoreFacts.
Import Store.

Lemma place_permutation (m : Message) (l : list Message) :
  Permutation (place m l) (m :: l).
Proof.
  induction l as [|x l IH]; simpl; [reflexivity|].
  destruct (timestamp m <? timestamp x); [reflexivity|].
  rewrite IH. apply perm_swap.
Qed.

Lemma place_sorted (m : Message) (l : list Message) :
  StronglySorted not_later l -> StronglySorted not_later (place m l).
Proof.
  induction 1 as [|x l Hs IH Hx]; simpl.
  - repeat constructor.
  - destruct (Z.ltb_spec (timestamp m) (timestamp x)) as [Hlt|Hge].
    + constructor; [constructor; assumption|].
      constructor; [unfold not_later; lia|].
      eapply Forall_impl; [exact Hx|].
      unfold not_later. intros a Ha. lia.
    + constructor; [assumption|].
      apply (Permutation_Forall (Permutation_sym (place_permutation m l))).
      constructor; [exact Hge | exact Hx].
Qed.


Lemma fold_place_permutation (l acc : list Message) :
  Permutation (fold_left (fun sorted m => place m sorted) l acc) (acc ++ l).
Proof.
  revert acc. induction l as [|m l IH]; intros acc; simpl.
  - now rewrite app_nil_r.
  - rewrite IH, place_permutation. apply Permutation_middle.
Qed.

Lemma fold_place_sorted (l acc : list Message) :
  StronglySorted not_later acc ->
  StronglySorted not_later (fold_left (fun sorted m => place m sorted) l acc).
Proof.
  revert acc. induction l as [|m l IH]; intros acc Hacc; simpl; [assumption|].
  apply IH, place_sorted, Hacc.
Qed.



(** The query returns every row, in non-decreasing timestamp order. *)
Lemma order_by_timestamp_sorted (d : list Message) :
  Permutation (order_by_timestamp d) d /\
  StronglySorted not_later (order_by_timestamp d).
Proof.
  split.
  - apply (fold_place_permutation d []).
  - apply fold_place_sorted. constructor.
Qed.





End StoreFacts.




(** ** Runs: rules of [wp] *)

Lemma wp_ret {A} (a : A) Q w : Q a w [] -> wp (mret a) Q w.
Proof. exact (fun H => H). Qed.

Lemma wp_bind {A B} (m : M A) (f : A -> M B) Q w :
  wp m (fun a w1 e1 => wp (f a) (fun b w2 e2 => Q b w2 (e1 ++ e2)) w1) w ->
  wp (m ≫= f) Q w.
Proof.
  unfold wp, mbind, M_bind.
  destruct (m w) as [[[a|] w1] e1]; [|exact (fun H => H)].
  destruct (f a w1) as [[[b|] w2] e2]; exact (fun H => H).
Qed.

Lemma wp_mono {A} (m : M A) (Q Q' : A -> World -> list Event -> Prop) w :
  wp m Q w -> (forall a w' evs, Q a w' evs -> Q' a w' evs) -> wp m Q' w.
Proof.
  unfold wp. destruct (m w) as [[[a|] w1] e1]; [|exact (fun H _ => H)].
  intros H HQ. exact (HQ _ _ _ H).
Qed.

Lemma wp_result {A} (m : M A) Q w :
  wp m Q w ->
  exists a, m w = (Some a, world_of (m w), events_of (m w)) /\
            Q a (world_of (m w)) (events_of (m w)).
Proof.
  unfold wp, world_of, events_of.
  destruct (m w) as [[[a|] w1] e1]; [|intros []].
  intros H. exists a. split; [reflexivity | exact H].
Qed.

Lemma wp_gets {A} (f : World -> A) Q w : Q (f w) w [] -> wp (gets f) Q w.
Proof. exact (fun H => H). Qed.

Lemma wp_modify (f : World -> World) Q w : Q tt (f w) [] -> wp (modify f) Q w.
Proof. exact (fun H => H). Qed.

Lemma wp_emit (a : Action) Q w :
  Q tt w [ {| thread := cur w; action := a |} ] -> wp (emit a) Q w.
Proof. exact (fun H => H). Qed.

Lemma wp_ui (a : UiAction) Q w :
  Q tt (with_app (apply_ui a) w) [ {| thread := cur w; action := UiAct a |} ] ->
  wp (ui a) Q w.
Proof. exact (fun H => H). Qed.

Lemma wp_fs_do (op : FsOp) Q w :
  Q tt (with_files (apply_fs op) w) [ {| thread := cur w; action := FsAct op |} ] ->
  wp (fs_do op) Q w.
Proof. exact (fun H => H). Qed.

Lemma wp_idleAdd (cb : Callback) Q w :
  Q tt (with_idle (fun q => q ++ [cb]) w) [ {| thread := cur w; action := IdleAdd cb |} ] ->
  wp (idleAdd cb) Q w.
Proof. exact (fun H => H). Qed.

Lemma wp_dbExec_ok role content now Q w :
  Q None (with_app (with_db (Store.insert now role content)) w)
    [ {| thread := cur w; action := DbExec role content (ExecOk now) |} ] ->
  wp (dbExec role content (ExecOk now)) Q w.
Proof. exact (fun H => H). Qed.

Lemma wp_dbExec_err role content msg Q w :
  Q (Some msg) w [ {| thread := cur w; action := DbExec role content (ExecErr msg) |} ] ->
  wp (dbExec role content (ExecErr msg)) Q w.
Proof. exact (fun H => H). Qed.

Lemma wp_newVar s Q w :
  Q (length (vars w)) (with_vars (fun vs => vs ++ [s]) w) [] -> wp (newVar s) Q w.
Proof. exact (fun H => H). Qed.

Lemma wp_readVar v Q w : Q (default "" (vars w !! v)) w [] -> wp (readVar v) Q w.
Proof. exact (fun H => H). Qed.

Lemma wp_appendVar v s Q w :
  Q tt (with_vars (fun vs => <[v := default "" (vars w !! v) +:+ s]> vs) w) [] ->
  wp (appendVar v s) Q w.
Proof. exact (fun H => H). Qed.

Lemma wp_appendLabel text Q w :
  Q (length (chatHistory (app w))) (with_app (apply_ui (ChatAppend text)) w)
    [ {| thread := cur w; action := UiAct (ChatAppend text) |} ] ->
  wp (appendLabel text) Q w.
Proof. exact (fun H => H). Qed.

Lemma wp_setStatus message Q w :
  Q tt (with_app (apply_ui (StatusSetText message)) w)
    [ {| thread := cur w; action := UiAct (StatusSetText message) |} ] ->
  wp (setStatus message) Q w.
Proof. exact (fun H => H). Qed.

Lemma wp_addMessageToUI role content Q w :
  Q tt (with_app (apply_ui (ChatAppend (role +:+ ": " +:+ content))) w)
    [ {| thread := cur w; action := UiAct (ChatAppend (role +:+ ": " +:+ content)) |};
      {| thread := cur w; action := UiAct ScrollToBottom |} ] ->
  wp (addMessageToUI role content) Q w.
Proof. exact (fun H => H). Qed.

Lemma wp_go_ (body : M unit) Q w :
  wp body (fun _ w' evs => Q tt (with_cur (cur w) w') evs) (with_cur Goroutine w) ->
  wp (go_ body) Q w.
Proof.
  unfold go_, wp, mbind, M_bind, gets, modify. simpl.
  destruct (body (with_cur Goroutine w)) as [[[[]|] w1] e1]; simpl.
  - now rewrite app_nil_r.
  - exact (fun H => H).
Qed.

Lemma wp_configDir Q w :
  match userConfigDir w with
  | Some dir =>
      Q (filepath_Join dir "openai-gtk")
        (with_files (apply_fs (MkdirAll (filepath_Join dir "openai-gtk") None)) w)
        [ {| thread := cur w;
             action := FsAct (MkdirAll (filepath_Join dir "openai-gtk") None) |} ]
  | None => Q (tempDir w) w []
  end ->
  wp configDir Q w.
Proof.
  unfold configDir, wp, mbind, M_bind, gets. simpl.
  destruct (userConfigDir w); exact (fun H => H).
Qed.

Ltac wp_step :=
  lazymatch goal with
  | |- wp (_ ≫= _) _ _ => apply wp_bind
  | |- wp (mret _) _ _ => apply wp_ret
  | |- wp (ret _) _ _ => apply wp_ret
  | |- wp (gets _) _ _ => apply wp_gets
  | |- wp (modify _) _ _ => apply wp_modify
  | |- wp (emit _) _ _ => apply wp_emit
  | |- wp (ui _) _ _ => apply wp_ui
  | |- wp (fs_do _) _ _ => apply wp_fs_do
  | |- wp (idleAdd _) _ _ => apply wp_idleAdd
  | |- wp (setStatus _) _ _ => apply wp_setStatus
  | |- wp (addMessageToUI _ _) _ _ => apply wp_addMessageToUI
  | |- wp (appendLabel _) _ _ => apply wp_appendLabel
  | |- wp (newVar _) _ _ => apply wp_newVar
  | |- wp (readVar _) _ _ => apply wp_readVar
  | |- wp (appendVar _ _) _ _ => apply wp_appendVar
  | |- wp (dbExec _ _ (ExecOk _)) _ _ => apply wp_dbExec_ok
  | |- wp (dbExec _ _ (ExecErr _)) _ _ => apply wp_dbExec_err
  | |- wp (go_ _) _ _ => apply wp_go_
  | |- wp configDir _ _ => apply wp_configDir
  end.

Ltac wp_steps := repeat (wp_step; cbn beta).

(** ** Runs: projections of the event log *)

Lemma db_execs_app e1 e2 : db_execs (e1 ++ e2) = db_execs e1 ++ db_execs e2.
Proof. apply omap_app. Qed.

Lemma requests_app e1 e2 : requests (e1 ++ e2) = requests e1 ++ requests e2.
Proof. apply omap_app. Qed.

Lemma idle_adds_app e1 e2 : idle_adds (e1 ++ e2) = idle_adds e1 ++ idle_adds e2.
Proof. apply omap_app. Qed.

Lemma chat_appends_app e1 e2 : chat_appends (e1 ++ e2) = chat_appends e1 ++ chat_appends e2.
Proof. apply omap_app. Qed.

Lemma network_events_app e1 e2 :
  network_events (e1 ++ e2) = network_events e1 ++ network_events e2.
Proof. apply List.filter_app. Qed.

Lemma before_network_quiet e1 e2 :
  network_events e1 = [] -> before_network (e1 ++ e2) = e1 ++ before_network e2.
Proof.
  induction e1 as [|e e1 IH]; simpl; [reflexivity|].
  unfold network_events in *. simpl.
  destruct (is_network e); [discriminate|].
  intros H. now rewrite IH.
Qed.

Lemma before_network_all e1 :
  network_events e1 = [] -> before_network e1 = e1.
Proof.
  intros H. rewrite <- (app_nil_r e1) at 1.
  rewrite (before_network_quiet _ _ H). simpl. apply app_nil_r.
Qed.

Lemma replay_fs_app e1 e2 fs : replay_fs (e1 ++ e2) fs = replay_fs e2 (replay_fs e1 fs).
Proof. apply fold_left_app. Qed.

Create Rewrite HintDb events.

#[local] Hint Rewrite db_execs_app requests_app idle_adds_app chat_appends_app
  network_events_app forallb_app app_nil_r app_nil_l : events.

(** ** Runs: what the main loop does meanwhile *)

Lemma interference_refl w : interference w w [].
Proof.
  constructor; try reflexivity. exists 0%nat. reflexivity.
Qed.

Lemma interference_trans w w1 w2 e1 e2 :
  interference w w1 e1 -> interference w1 w2 e2 -> interference w w2 (e1 ++ e2).
Proof.
  intros [? ? ? [k1 Hk1] ? ? ? ? ?] [? ? ? [k2 Hk2] ? ? ? ? ?].
  constructor; autorewrite with events; try congruence.
  - exists (k1 + k2)%nat. rewrite Hk2, Hk1. apply drop_drop.
  - now rewrite itf_execs0, itf_execs1.
  - now rewrite itf_requests0, itf_requests1.
  - now rewrite itf_network0, itf_network1.
  - now rewrite itf_adds0, itf_adds1.
  - now rewrite itf_appends0, itf_appends1.
Qed.

Lemma pending_safe_drop w w' k :
  idle w' = drop k (idle w) -> pending_safe w -> pending_safe w'.
Proof.
  unfold pending_safe. intros ->.
  rewrite <- (take_drop k (idle w)) at 1. rewrite forallb_app.
  intros H. apply andb_true_iff in H. apply H.
Qed.

Lemma interference_safe w w' evs :
  interference w w' evs -> pending_safe w -> pending_safe w'.
Proof. intros [_ _ _ [k Hk] _ _ _ _ _]. exact (pending_safe_drop _ _ _ Hk). Qed.

(** A closure that does not panic returns and leaves the queue alone. *)
Lemma run_callback_interference cb w :
  callback_safe cb = true ->
  wp (run_callback cb)
     (fun _ w' evs => interference w w' evs /\ idle w' = idle w) w.
Proof.
  intros Hsafe.
  assert (Hrefl : forall w', idle w' = idle w -> exists k, idle w' = drop k (idle w)).
  { intros w' ->. now exists 0%nat. }
  assert (Hok : forall w' evs,
            db (app w') = db (app w) -> vars w' = vars w -> cur w' = cur w ->
            idle w' = idle w -> db_execs evs = [] -> requests evs = [] ->
            network_events evs = [] -> idle_adds evs = [] ->
            forallb is_assistant_text (chat_appends evs) = true ->
            interference w w' evs /\ idle w' = idle w).
  { intros w' evs ? ? ? Hq ? ? ? ? ?. split; [|exact Hq].
    constructor; try assumption. exists 0%nat. exact Hq. }
  destruct cb as [lbl r|r|err| |env| |err path]; simpl.
  - wp_steps. now apply Hok.
  - wp_steps. now apply Hok.
  - wp_steps. now apply Hok.
  - wp_steps. now apply Hok.
  - unfold imageResult. simpl in Hsafe. wp_steps.
    destruct (generate_result env) as [err|[|B64JSON data]];
      [ | discriminate | ].
    + wp_steps. now apply Hok.
    + destruct (DecodeString env B64JSON) as [err|imageBytes].
      * wp_steps. now apply Hok.
      * wp_steps. simpl.
        destruct (userConfigDir w) as [dir|]; wp_steps;
          destruct (write_result env) as [|err|n err]; wp_steps;
          try (destruct (texture_err env) as [err|]; wp_steps);
          now apply Hok.
  - wp_steps. now apply Hok.
  - destruct err as [err|]; wp_steps; now apply Hok.
Qed.

Lemma run_idle_interference n w :
  pending_safe w -> wp (run_idle n) (fun _ w' evs => interference w w' evs) w.
Proof.
  revert w. induction n as [|n IH]; intros w Hsafe.
  - apply wp_ret, interference_refl.
  - simpl. apply wp_bind, wp_gets.
    destruct (idle w) as [|cb rest] eqn:Hq.
    + apply wp_ret. simpl. apply interference_refl.
    + unfold pending_safe in Hsafe. rewrite Hq in Hsafe. simpl in Hsafe.
      apply andb_true_iff in Hsafe as [Hcb Hrest].
      apply wp_bind, wp_modify, wp_bind.
      eapply wp_mono; [apply (run_callback_interference cb), Hcb|].
      intros [] w1 e1 [Hi1 Hq1]. simpl in Hq1.
      eapply wp_mono; [apply IH|].
      * unfold pending_safe. now rewrite Hq1.
      * intros [] w2 e2 Hi2. simpl.
        pose proof (interference_trans _ _ _ _ _ Hi1 Hi2) as Hi.
        destruct Hi as [? ? ? [k Hk] ? ? ? ? ?]. simpl in *.
        constructor; try assumption.
        exists (S k). rewrite Hq. exact Hk.
Qed.

(** The main loop between two steps of a goroutine. *)
Lemma preempt_interference w :
  pending_safe w -> wp preempt (fun _ w' evs => interference w w' evs) w.
Proof.
  intros Hsafe. unfold preempt.
  apply wp_bind, wp_gets.
  destruct (sched w) as [|n rest] eqn:Hs.
  - apply wp_ret. simpl. apply interference_refl.
  - apply wp_bind, wp_gets, wp_bind, wp_modify, wp_bind, wp_modify, wp_bind.
    eapply wp_mono; [apply run_idle_interference; exact Hsafe|].
    intros [] w1 e1 Hi. apply wp_modify. simpl.
    destruct Hi as [? ? ? [k Hk] ? ? ? ? ?]. simpl in *.
    rewrite app_nil_r.
    constructor; simpl; try assumption; try reflexivity.
    now exists k.
Qed.

Lemma wp_bg {A} (m : M A) Q w :
  pending_safe w ->
  (forall w1 e1, interference w w1 e1 -> pending_safe w1 ->
     wp m (fun a w2 e2 => Q a w2 (e1 ++ e2)) w1) ->
  wp (bg m) Q w.
Proof.
  intros Hsafe H. unfold bg. apply wp_bind.
  eapply wp_mono; [apply preempt_interference, Hsafe|].
  intros [] w1 e1 Hi. apply H; [exact Hi|].
  exact (interference_safe _ _ _ Hi Hsafe).
Qed.

(** ** The chat coordinator *)

Lemma append_assoc (a b c : string) : (a +:+ b) +:+ c = a +:+ (b +:+ c).
Proof.
  induction a as [|x a IH]; [reflexivity|].
  change (String x ((a +:+ b) +:+ c) = String x (a +:+ (b +:+ c))).
  now f_equal.
Qed.

Lemma append_nil_r (a : string) : a +:+ "" = a.
Proof.
  induction a as [|x a IH]; [reflexivity|].
  change (String x (a +:+ "") = String x a).
  now f_equal.
Qed.

Lemma deltas_cons (evt : ChatCompletionChunk) (rest : list ChatCompletionChunk) :
  deltas (evt :: rest) = delta_of evt +:+ deltas rest.
Proof.
  unfold deltas. simpl. destruct (map delta_of rest) as [|d ds] eqn:E.
  - simpl. now rewrite append_nil_r.
  - reflexivity.
Qed.

Ltac split_interference :=
  repeat match goal with
  | H : interference _ _ _ |- _ =>
      let k := fresh "k" in
      destruct H as [? ? ? [k ?] ? ? ? ? ?]
  end.

Ltac rewrite_log :=
  autorewrite with events;
  repeat match goal with
  | H : db_execs ?e = _ |- context [db_execs ?e] => rewrite H
  | H : requests ?e = _ |- context [requests ?e] => rewrite H
  | H : network_events ?e = _ |- context [network_events ?e] => rewrite H
  | H : idle_adds ?e = _ |- context [idle_adds ?e] => rewrite H
  | H : forallb is_assistant_text (chat_appends ?e) = _
      |- context [forallb is_assistant_text (chat_appends ?e)] => rewrite H
  end.

Ltac fold_log :=
  change (omap db_exec_of) with db_execs in *;
  change (omap request_of) with requests in *;
  change (omap idle_add_of) with idle_adds in *;
  change (omap chat_append_of) with chat_appends in *;
  change (List.filter is_network) with network_events in *.

Ltac log_simpl := simpl; fold_log; rewrite_log; simpl; fold_log.

Lemma pending_safe_add cb w :
  callback_safe cb = true -> pending_safe w ->
  pending_safe (with_idle (fun q => q ++ [cb]) w).
Proof.
  unfold pending_safe. simpl. intros Hcb Hw.
  rewrite forallb_app, Hw. simpl. now rewrite Hcb.
Qed.

Lemma lookup_append_var (vs : list string) (v : nat) (old new : string) :
  vs !! v = Some old -> <[v := new]> vs !! v = Some new.
Proof.
  intros H. apply list_lookup_insert_eq. eapply lookup_lt_Some, H.
Qed.

Lemma First_stream_loop assistantLabel response events : forall acc w,
  pending_safe w -> vars w !! response = Some acc ->
  wp (First.stream_loop assistantLabel response events)
     (fun _ w' evs => streamed response acc events w w' evs) w.
Proof.
  induction events as [|evt rest IH]; intros acc w Hsafe Hvar; simpl.
  - apply wp_bg; [exact Hsafe|]. intros w1 e1 Hi Hs1. wp_steps.
    split_interference. constructor; rewrite_log; simpl; try congruence.
    + unfold deltas. simpl. rewrite append_nil_r. congruence.
    + constructor.
  - wp_step. apply wp_bg; [exact Hsafe|]. intros w1 e1 Hi1 Hs1. wp_steps.
    assert (Hv1 : vars w1 !! response = Some acc)
      by (destruct Hi1; congruence).
    destruct (Choices evt) as [|delta others] eqn:Hch.
    + wp_steps.
      eapply wp_mono; [apply (IH acc w1 Hs1 Hv1)|].
      intros [] w2 e2 [? ? ? ? ? ? ? ?]. split_interference.
      constructor; rewrite_log; simpl; try congruence.
      rewrite deltas_cons. unfold delta_of. rewrite Hch. assumption.
    + wp_step. apply wp_bg; [exact Hs1|]. intros w2 e2 Hi2 Hs2. wp_steps.
      apply wp_bg.
      { exact Hs2. }
      intros w3 e3 Hi3 Hs3. wp_steps.
      assert (Hv3 : vars w3 !! response = Some (acc +:+ delta)).
      { destruct Hi3 as [_ -> _ _ _ _ _ _ _]. simpl.
        destruct Hi2 as [_ Hv2 _ _ _ _ _ _ _]. rewrite Hv2, Hv1. simpl.
        eapply lookup_append_var. exact Hv1. }
      eapply wp_mono; [apply (IH (acc +:+ delta))|].
      * apply pending_safe_add; [reflexivity | exact Hs3].
      * exact Hv3.
      * intros [] w4 e4 [? ? ? ? ? ? ? ?]. split_interference. simpl in *.
        constructor; rewrite_log; simpl; try congruence.
        -- rewrite deltas_cons. unfold delta_of. rewrite Hch.
           rewrite <- append_assoc. congruence.
        -- rewrite_log. simpl. constructor; [reflexivity | assumption].
Qed.

Lemma Second_stream_loop response events : forall acc w,
  pending_safe w -> vars w !! response = Some acc ->
  wp (Second.stream_loop response events)
     (fun _ w' evs => streamed response acc events w w' evs) w.
Proof.
  induction events as [|evt rest IH]; intros acc w Hsafe Hvar; simpl.
  - apply wp_bg; [exact Hsafe|]. intros w1 e1 Hi Hs1. wp_steps.
    split_interference. constructor; rewrite_log; simpl; try congruence.
    + unfold deltas. simpl. rewrite append_nil_r. congruence.
    + constructor.
  - wp_step. apply wp_bg; [exact Hsafe|]. intros w1 e1 Hi1 Hs1. wp_steps.
    assert (Hv1 : vars w1 !! response = Some acc)
      by (destruct Hi1; congruence).
    destruct (Choices evt) as [|delta others] eqn:Hch.
    + wp_steps.
      eapply wp_mono; [apply (IH acc w1 Hs1 Hv1)|].
      intros [] w2 e2 [? ? ? ? ? ? ? ?]. split_interference.
      constructor; rewrite_log; simpl; try congruence.
      rewrite deltas_cons. unfold delta_of. rewrite Hch. assumption.
    + wp_step. apply wp_bg; [exact Hs1|]. intros w2 e2 Hi2 Hs2. wp_steps.
      apply wp_bg.
      { exact Hs2. }
      intros w3 e3 Hi3 Hs3. wp_steps.
      assert (Hv3 : vars w3 !! response = Some (acc +:+ delta)).
      { destruct Hi3 as [_ -> _ _ _ _ _ _ _]. simpl.
        destruct Hi2 as [_ Hv2 _ _ _ _ _ _ _]. rewrite Hv2, Hv1. simpl.
        eapply lookup_append_var. exact Hv1. }
      eapply wp_mono; [apply (IH (acc +:+ delta))|].
      * apply pending_safe_add; [reflexivity | exact Hs3].
      * exact Hv3.
      * intros [] w4 e4 [? ? ? ? ? ? ? ?]. split_interference. simpl in *.
        constructor; rewrite_log; simpl; try congruence.
        -- rewrite deltas_cons. unfold delta_of. rewrite Hch.
           rewrite <- append_assoc. congruence.
        -- rewrite_log. simpl. constructor; [reflexivity | assumption].
Qed.


Lemma filter_not_assistant (l : list string) :
  forallb is_assistant_text l = true ->
  List.filter (fun s => negb (is_assistant_text s)) l = [].
Proof.
  induction l as [|s l IH]; simpl; [reflexivity|].
  intros H. apply andb_true_iff in H as [Hs Hl].
  rewrite Hs. simpl. exact (IH Hl).
Qed.

Lemma user_text_not_assistant (text : string) :
  is_assistant_text ("user: " +:+ text) = false.
Proof. reflexivity. Qed.

Lemma user_role_text_not_assistant (text : string) :
  is_assistant_text ("user" +:+ ": " +:+ text) = false.
Proof. reflexivity. Qed.

Ltac sent_field :=
  lazymatch goal with
  | |- db_execs (before_network _) = _ =>
      simpl; rewrite <- ?app_assoc;
      rewrite before_network_quiet by assumption; log_simpl; reflexivity
  | |- In _ (chat_appends (before_network _)) => simpl; left; reflexivity
  | |- List.filter _ (chat_appends _) = _ =>
      log_simpl; rewrite ?List.filter_app;
      rewrite ?filter_not_assistant by assumption; reflexivity
  | |- db_execs _ = _ => log_simpl; reflexivity
  | |- requests _ = _ => log_simpl; reflexivity
  | |- db (app _) = _ => simpl; congruence
  | |- exists q, _ /\ _ =>
      eexists; split; [simpl; reflexivity|]; log_simpl;
      repeat (apply in_or_app; right); left; reflexivity
  | |- pending_safe _ =>
      unfold pending_safe in *; simpl; rewrite ?forallb_app; simpl;
      first [ assumption
            | match goal with
              | H : forallb callback_safe (idle ?w) = true
                |- context [forallb callback_safe (idle ?w)] => rewrite H
              end; reflexivity ]
  | |- cur _ = _ => simpl; congruence
  | |- True => exact I
  end.

(** The first version, when the text is not empty and the store accepts the
    user row. *)
Lemma First_onSendMessage_sent env w now :
  chatInput (app w) <> "" ->
  user_exec env = ExecOk now ->
  pending_safe w ->
  wp (First.onSendMessage env)
     (fun _ w' evs =>
        sent {| Messages := [UserMessage (chatInput (app w))];
                Model := ChatModelGPT4oMini;
                Temperature := None |}
             env (chatInput (app w)) now w w' evs) w.
Proof.
  intros Htext Huser Hsafe. unfold First.onSendMessage.
  wp_steps. destruct (decide (chatInput (app w) = "")) as [|_]; [contradiction|].
  wp_steps. rewrite Huser. wp_steps. cbn beta iota. wp_steps.
  apply wp_bg; [exact Hsafe|]. intros w1 e1 Hi1 Hs1. wp_steps.
  apply wp_bg; [exact Hs1|]. intros w2 e2 Hi2 Hs2. wp_steps.
  eapply wp_mono.
  { apply (First_stream_loop _ _ _ ""); [exact Hs2|].
    simpl. now apply list_lookup_middle. }
  intros [] w3 e3 Hloop. wp_steps.
  destruct Hloop as [Hdb3 Hvar3 Hcur3 Hs3 Hex3 Hrq3 Hap3 Had3].
  apply wp_bg; [exact Hs3|]. intros w4 e4 Hi4 Hs4. wp_steps.
  destruct (stream_err env) as [err|] eqn:Herr.
  - apply wp_bg; [exact Hs4|]. intros w5 e5 Hi5 Hs5. wp_steps.
    split_interference. simpl in *.
    constructor; rewrite ?Herr; sent_field.
  - wp_steps.
    assert (Hr : default "" (vars w4 !! length (vars w2)) = deltas (stream env)).
    { destruct Hi4 as [_ -> _ _ _ _ _ _ _]. now rewrite Hvar3. }
    rewrite Hr.
    destruct (assistant_exec env) as [now'|msg] eqn:Hasst.
    + apply wp_bg; [exact Hs4|]. intros w5 e5 Hi5 Hs5. wp_steps.
      cbn beta iota. wp_steps.
      split_interference. simpl in *.
      constructor; rewrite ?Herr, ?Hasst; sent_field.
    + apply wp_bg; [exact Hs4|]. intros w5 e5 Hi5 Hs5. wp_steps.
      cbn beta iota.
      apply wp_bg; [exact Hs5|]. intros w6 e6 Hi6 Hs6. wp_steps.
      split_interference. simpl in *.
      constructor; rewrite ?Herr, ?Hasst; sent_field.
Qed.

(** The second version, under the same conditions. *)
Lemma Second_onSendMessage_sent env w now :
  chatInput (app w) <> "" ->
  user_exec env = ExecOk now ->
  pending_safe w ->
  wp (Second.onSendMessage env)
     (fun _ w' evs =>
        sent {| Messages := [UserMessage (chatInput (app w))];
                Model := ChatModelGPT4o;
                Temperature := None |}
             env (chatInput (app w)) now w w' evs) w.
Proof.
  intros Htext Huser Hsafe. unfold Second.onSendMessage.
  wp_steps. destruct (decide (chatInput (app w) = "")) as [|_]; [contradiction|].
  wp_steps. rewrite Huser. wp_steps. cbn beta iota. wp_steps.
  apply wp_bg; [exact Hsafe|]. intros w1 e1 Hi1 Hs1. wp_steps.
  apply wp_bg; [exact Hs1|]. intros w2 e2 Hi2 Hs2. wp_steps.
  eapply wp_mono.
  { apply (Second_stream_loop _ _ ""); [exact Hs2|].
    simpl. now apply list_lookup_middle. }
  intros [] w3 e3 Hloop. wp_steps.
  destruct Hloop as [Hdb3 Hvar3 Hcur3 Hs3 Hex3 Hrq3 Hap3 Had3].
  apply wp_bg; [exact Hs3|]. intros w4 e4 Hi4 Hs4. wp_steps.
  destruct (stream_err env) as [err|] eqn:Herr.
  - apply wp_bg; [exact Hs4|]. intros w5 e5 Hi5 Hs5. wp_steps.
    split_interference. simpl in *.
    constructor; rewrite ?Herr; sent_field.
  - wp_steps.
    assert (Hr : default "" (vars w4 !! length (vars w2)) = deltas (stream env)).
    { destruct Hi4 as [_ -> _ _ _ _ _ _ _]. now rewrite Hvar3. }
    rewrite Hr.
    destruct (assistant_exec env) as [now'|msg] eqn:Hasst.
    + apply wp_bg; [exact Hs4|]. intros w5 e5 Hi5 Hs5. wp_steps.
      cbn beta iota. wp_steps.
      split_interference. simpl in *.
      constructor; rewrite ?Herr, ?Hasst; sent_field.
    + apply wp_bg; [exact Hs4|]. intros w5 e5 Hi5 Hs5. wp_steps.
      cbn beta iota.
      apply wp_bg; [exact Hs5|]. intros w6 e6 Hi6 Hs6. wp_steps.
      split_interference. simpl in *.
      constructor; rewrite ?Herr, ?Hasst; sent_field.
Qed.

(** Empty input: the handler returns at once. *)
Lemma onSendMessage_empty env w :
  chatInput (app w) = "" ->
  First.onSendMessage env w = (Some tt, w, []) /\
  Second.onSendMessage env w = (Some tt, w, []).
Proof.
  intros H. unfold First.onSendMessage, Second.onSendMessage.
  unfold mbind, M_bind, gets. simpl.
  destruct (decide (chatInput (app w) = "")); [|contradiction].
  split; reflexivity.
Qed.

(** The store rejects the user row: the handler sets the status and
    returns. *)
Lemma First_onSendMessage_rejected env w msg :
  chatInput (app w) <> "" ->
  user_exec env = ExecErr msg ->
  First.onSendMessage env w =
    (Some tt,
     with_app (apply_ui (StatusSetText "Error saving message"))
       (with_app (apply_ui (InputSetText ""))
          (with_app (apply_ui (ChatAppend ("user: " +:+ chatInput (app w)))) w)),
     [ {| thread := cur w; action := UiAct (ChatAppend ("user: " +:+ chatInput (app w))) |};
       {| thread := cur w; action := UiAct (InputSetText "") |};
       {| thread := cur w; action := DbExec "user" (chatInput (app w)) (ExecErr msg) |};
       {| thread := cur w; action := UiAct (StatusSetText "Error saving message") |} ]).
Proof.
  intros Htext Huser. unfold First.onSendMessage.
  unfold mbind, M_bind, gets. simpl.
  destruct (decide (chatInput (app w) = "")); [contradiction|].
  rewrite Huser. reflexivity.
Qed.

Lemma Second_onSendMessage_rejected env w msg :
  chatInput (app w) <> "" ->
  user_exec env = ExecErr msg ->
  Second.onSendMessage env w =
    (Some tt,
     with_app (apply_ui (StatusSetText "Error saving message"))
       (with_app (apply_ui (InputSetText ""))
          (with_app (apply_ui (ChatAppend ("user: " +:+ chatInput (app w)))) w)),
     [ {| thread := cur w; action := UiAct (ChatAppend ("user: " +:+ chatInput (app w))) |};
       {| thread := cur w; action := UiAct ScrollToBottom |};
       {| thread := cur w; action := UiAct (InputSetText "") |};
       {| thread := cur w; action := DbExec "user" (chatInput (app w)) (ExecErr msg) |};
       {| thread := cur w; action := UiAct (StatusSetText "Error saving message") |} ]).
Proof.
  intros Htext Huser. unfold Second.onSendMessage.
  unfold mbind, M_bind, gets. simpl.
  destruct (decide (chatInput (app w) = "")); [contradiction|].
  rewrite Huser. reflexivity.
Qed.

(** The main loop runs the queue to its end; the closure queued last runs
    last. *)
Lemma run_idle_to_last q : forall w cb (Q : unit -> World -> list Event -> Prop),
  idle w = q ++ [cb] -> pending_safe w ->
  (forall w1 e1, interference w w1 e1 -> idle w1 = [] ->
     wp (run_callback cb) (fun _ w2 e2 => Q tt w2 (e1 ++ e2)) w1) ->
  wp (run_idle (length (q ++ [cb]))) Q w.
Proof.
  induction q as [|c q IH]; intros w cb Q Hq Hsafe H; simpl.
  - wp_steps. rewrite Hq. simpl. wp_steps.
    eapply wp_mono.
    + apply (H (with_idle (fun _ => []) w) []); [|reflexivity].
      constructor; try reflexivity. exists 1%nat. now rewrite Hq.
    + intros [] w2 e2 HQ. wp_steps. simpl in *. now rewrite app_nil_r.
  - wp_steps. rewrite Hq. simpl. wp_steps.
    unfold pending_safe in Hsafe. rewrite Hq in Hsafe. simpl in Hsafe.
    apply andb_true_iff in Hsafe as [Hc Hrest].
    eapply wp_mono; [apply (run_callback_interference c), Hc|].
    intros [] w1 e1 [Hi1 Hq1]. simpl in Hq1.
    apply IH; [exact Hq1 | unfold pending_safe; now rewrite Hq1 |].
    intros w2 e2 Hi2 Hq2.
    assert (Hi : interference w w2 (e1 ++ e2)).
    { pose proof (interference_trans _ _ _ _ _ Hi1 Hi2) as Hi.
      destruct Hi as [? ? ? [k Hk] ? ? ? ? ?]. simpl in *.
      constructor; try assumption.
      exists (length (idle w)). rewrite Hq2. symmetry. now apply drop_all. }
    eapply wp_mono; [apply (H w2 (e1 ++ e2) Hi Hq2)|].
    intros [] w3 e3 HQ. simpl. now rewrite <- app_assoc in HQ.
Qed.

(** After the main loop the status bar shows what the closure queued last
    set; the main loop touches neither the store nor the network. *)
Lemma main_loop_status w q cb msg :
  idle w = q ++ [cb] -> pending_safe w -> status_of cb = Some msg ->
  wp main_loop
     (fun _ w' evs =>
        statusBar (app w') = msg /\
        db (app w') = db (app w) /\
        db_execs evs = [] /\ requests evs = [] /\ network_events evs = [] /\
        In {| thread := cur w; action := UiAct (StatusSetText msg) |} evs) w.
Proof.
  intros Hq Hsafe Hmsg. unfold main_loop. wp_steps. rewrite Hq.
  apply run_idle_to_last; [exact Hq | exact Hsafe |].
  intros w1 e1 Hi _. split_interference.
  destruct cb as [? ?|?|err| |?| |[err|] path]; try discriminate;
    simpl in Hmsg; injection Hmsg as <-; simpl; wp_steps; simpl;
    (split; [reflexivity|]); (split; [assumption|]);
    rewrite_log; simpl; repeat (split; [reflexivity|]);
    apply in_or_app; right; left; congruence.
Qed.

Lemma wp_elim {A} (m : M A) Q w :
  wp m Q w ->
  exists a, result_of (m w) = Some a /\ Q a (world_of (m w)) (events_of (m w)).
Proof.
  unfold wp, result_of, world_of, events_of.
  destruct (m w) as [[[a|] w1] e1]; [|intros []].
  intros H. exists a. split; [reflexivity | exact H].
Qed.

Lemma result_unit (r : option unit * World * list Event) a :
  result_of r = Some a -> result_of r = Some tt.
Proof. destruct a. exact (fun H => H). Qed.

Lemma pending_safe_with_sched s w : pending_safe (with_sched s w) <-> pending_safe w.
Proof. reflexivity. Qed.

(** C1, as the code has it.  When the stream ends without error, the
    handler issues exactly one INSERT of an assistant row, and its content is
    the concatenation, in arrival order, of the first delta of every chunk
    (a chunk without choices adds nothing).  If the store accepts the INSERT,
    that row, and no other assistant row, is added behind the user row; if the
    store rejects it, no assistant row is added and the status bar ends up
    reading "Error saving response". *)
Theorem reply_insert_is_concatenated_deltas (env : SendEnv) (w : World) (now : Z)
    (Htext : chatInput (app w) <> "")
    (Huser : user_exec env = ExecOk now)
    (Hstream : stream_err env = None)
    (Hsafe : pending_safe w) :
  let text := chatInput (app w) in
  let stored := Store.insert now "user" text (db (app w)) in
  let holds (r : option unit * World * list Event) :=
    result_of r = Some tt /\
    db_execs (events_of r) =
      [("user", text, ExecOk now);
       ("assistant", deltas (stream env), assistant_exec env)] /\
    match assistant_exec env with
    | ExecOk now' =>
        db (app (world_of r)) =
          Store.insert now' "assistant" (deltas (stream env)) stored
    | ExecErr _ =>
        db (app (world_of r)) = stored /\
        In SaveResponseError (idle_adds (events_of r)) /\
        let r' := main_loop (world_of r) in
        result_of r' = Some tt /\
        statusBar (app (world_of r')) = "Error saving response" /\
        db (app (world_of r')) = stored
    end in
  holds (First.onSendMessage env w) /\ holds (Second.onSendMessage env w).
Proof.
  intros text stored holds.
  assert (Hall : forall req r,
            (exists a, result_of r = Some a /\
               sent req env text now w (world_of r) (events_of r)) -> holds r).
  { intros req r (a & Hres & Hsent). destruct Hsent. unfold holds.
    rewrite Hstream in *.
    split; [exact (result_unit _ _ Hres)|].
    split; [assumption|].
    destruct (assistant_exec env) as [now'|msg]; [assumption|].
    destruct sent_idle0 as (q & Hq & Hin).
    split; [assumption|]. split; [exact Hin|].
    destruct (wp_elim _ _ _
      (main_loop_status _ _ _ _ Hq sent_safe0 eq_refl))
      as (a' & Hres' & Hst & Hdb & _).
    cbv zeta. split; [exact (result_unit _ _ Hres')|].
    split; [exact Hst|]. rewrite Hdb. assumption. }
  split.
  - exact (Hall _ _ (wp_elim _ _ _
      (First_onSendMessage_sent env w now Htext Huser Hsafe))).
  - exact (Hall _ _ (wp_elim _ _ _
      (Second_onSendMessage_sent env w now Htext Huser Hsafe))).
Qed.

Lemma reply_insert_witness :
  chatInput (app example_world) <> "" /\
  user_exec stream_completes = ExecOk 1700000000 /\
  stream_err stream_completes = None /\
  pending_safe example_world /\
  db (app (world_of (First.onSendMessage stream_completes example_world))) =
    Store.insert 1700000002 "assistant" "Hi there"
      (Store.insert 1700000000 "user" "Hello" []).
Proof.
  refine ((fun (Htext : chatInput (app example_world) <> "") =>
            conj Htext (conj eq_refl (conj eq_refl (conj eq_refl _)))) _).
  - exact (proj2 (proj2 (proj1
      (reply_insert_is_concatenated_deltas stream_completes example_world
         1700000000 Htext eq_refl eq_refl eq_refl)))).
  - discriminate.
Defined.

(** C1 as stated fails: the stream ends without error, the store rejects the
    INSERT of the reply, and no assistant row is inserted. *)
Lemma reply_not_inserted_when_store_rejects :
  let r := First.onSendMessage store_rejects_reply example_world in
  stream_err store_rejects_reply = None /\
  In {| thread := Goroutine; action := StreamErr None |} (events_of r) /\
  ~ (exists m, assistant_rows (db (app (world_of r))) = [m]).
Proof.
  split; [reflexivity|]. split.
  - vm_compute. tauto.
  - intros [m H]. vm_compute in H. discriminate H.
Qed.

(** C2.  When the stream ends with an error, the handler issues no INSERT
    of an assistant row: the store holds the user row and nothing more.  The
    goroutine hands the error to the main loop, and once the main loop has run
    the status bar reads "API Error: " followed by the error. *)
Theorem failed_stream_inserts_no_reply (env : SendEnv) (w : World) (now : Z)
    (err : string)
    (Htext : chatInput (app w) <> "")
    (Huser : user_exec env = ExecOk now)
    (Hstream : stream_err env = Some err)
    (Hsafe : pending_safe w) :
  let text := chatInput (app w) in
  let stored := Store.insert now "user" text (db (app w)) in
  let holds (r : option unit * World * list Event) :=
    result_of r = Some tt /\
    db_execs (events_of r) = [("user", text, ExecOk now)] /\
    db (app (world_of r)) = stored /\
    In (ApiError err) (idle_adds (events_of r)) /\
    let r' := main_loop (world_of r) in
    result_of r' = Some tt /\
    statusBar (app (world_of r')) = "API Error: " +:+ err /\
    In {| thread := cur w; action := UiAct (StatusSetText ("API Error: " +:+ err)) |}
       (events_of r') /\
    db_execs (events_of r') = [] /\
    db (app (world_of r')) = stored in
  holds (First.onSendMessage env w) /\ holds (Second.onSendMessage env w).
Proof.
  intros text stored holds.
  assert (Hall : forall req r,
            (exists a, result_of r = Some a /\
               sent req env text now w (world_of r) (events_of r)) -> holds r).
  { intros req r (a & Hres & Hsent). destruct Hsent. unfold holds.
    rewrite Hstream in *.
    destruct sent_idle0 as (q & Hq & Hin).
    split; [exact (result_unit _ _ Hres)|].
    do 3 (split; [assumption|]).
    destruct (wp_elim _ _ _
      (main_loop_status _ _ _ _ Hq sent_safe0 eq_refl))
      as (a' & Hres' & Hst & Hdb & Hex & _ & _ & Hin').
    cbv zeta. split; [exact (result_unit _ _ Hres')|].
    split; [exact Hst|].
    split; [now rewrite <- sent_cur0|].
    split; [exact Hex|]. rewrite Hdb. assumption. }
  split.
  - exact (Hall _ _ (wp_elim _ _ _
      (First_onSendMessage_sent env w now Htext Huser Hsafe))).
  - exact (Hall _ _ (wp_elim _ _ _
      (Second_onSendMessage_sent env w now Htext Huser Hsafe))).
Qed.

Lemma failed_stream_witness :
  chatInput (app example_world) <> "" /\
  user_exec stream_breaks = ExecOk 1700000000 /\
  stream_err stream_breaks = Some "unexpected EOF" /\
  pending_safe example_world /\
  db (app (world_of (Second.onSendMessage stream_breaks example_world))) =
    Store.insert 1700000000 "user" "Hello" [].
Proof.
  refine ((fun (Htext : chatInput (app example_world) <> "") =>
            conj Htext (conj eq_refl (conj eq_refl (conj eq_refl _)))) _).
  - exact (proj1 (proj2 (proj2 (proj2
      (failed_stream_inserts_no_reply stream_breaks example_world
         1700000000 "unexpected EOF" Htext eq_refl eq_refl eq_refl))))).
  - discriminate.
Defined.

Lemma insert_app now r c (d : Store.DB) :
  exists m, Store.insert now r c d = d ++ [m] /\ Store.role m = r.
Proof. eexists. split; reflexivity. Qed.

(** C3, as the code has it.  For a non-empty text the handler appends one
    label with the user's text to the chat box and issues exactly one INSERT
    of a user row with that text, both before any network I/O.  If the store
    accepts the INSERT, exactly one user row is added, whatever the network
    does afterwards; if the store rejects it, no row is added and no network
    call is made.  For an empty text the handler does nothing at all. *)
Theorem user_message_precedes_network (env : SendEnv) (w : World)
    (Hsafe : pending_safe w) :
  let text := chatInput (app w) in
  let holds (r : option unit * World * list Event) :=
    (text = "" -> r = (Some tt, w, [])) /\
    (text <> "" ->
       result_of r = Some tt /\
       db_execs (before_network (events_of r)) = [("user", text, user_exec env)] /\
       user_execs (events_of r) = [("user", text, user_exec env)] /\
       In ("user: " +:+ text) (chat_appends (before_network (events_of r))) /\
       List.filter (fun s => negb (is_assistant_text s)) (chat_appends (events_of r))
         = ["user: " +:+ text] /\
       match user_exec env with
       | ExecOk now =>
           exists replies,
             db (app (world_of r)) =
               Store.insert now "user" text (db (app w)) ++ replies /\
             Forall (fun m => Store.role m = "assistant") replies
       | ExecErr _ =>
           db (app (world_of r)) = db (app w) /\
           network_events (events_of r) = []
       end) in
  holds (First.onSendMessage env w) /\ holds (Second.onSendMessage env w).
Proof.
  intros text holds.
  assert (Hall : forall req r now,
            (exists a, result_of r = Some a /\
               sent req env text now w (world_of r) (events_of r)) ->
            result_of r = Some tt /\
            db_execs (before_network (events_of r)) = [("user", text, ExecOk now)] /\
            user_execs (events_of r) = [("user", text, ExecOk now)] /\
            In ("user: " +:+ text) (chat_appends (before_network (events_of r))) /\
            List.filter (fun s => negb (is_assistant_text s)) (chat_appends (events_of r))
              = ["user: " +:+ text] /\
            exists replies,
              db (app (world_of r)) =
                Store.insert now "user" text (db (app w)) ++ replies /\
              Forall (fun m => Store.role m = "assistant") replies).
  { intros req r now (a & Hres & Hsent). destruct Hsent.
    split; [exact (result_unit _ _ Hres)|].
    split; [assumption|].
    split.
    { unfold user_execs. rewrite sent_execs0.
      destruct (stream_err env); reflexivity. }
    do 2 (split; [assumption|]).
    rewrite sent_db0.
    destruct (stream_err env) as [e|].
    - exists []. now rewrite app_nil_r.
    - destruct (assistant_exec env) as [now'|msg].
      + unfold Store.insert at 1. eexists. split; [reflexivity|].
        constructor; [reflexivity | constructor].
      + exists []. now rewrite app_nil_r. }
  unfold holds. clear holds.
  destruct (decide (text = "")) as [He|Hne].
  { destruct (onSendMessage_empty env w He) as [E1 E2].
    rewrite E1, E2. split; (split; [reflexivity | contradiction]). }
  destruct (user_exec env) as [now|msg] eqn:Huser.
  - split; (split; [contradiction|]); intros _.
    + exact (Hall _ _ now (wp_elim _ _ _
        (First_onSendMessage_sent env w now Hne Huser Hsafe))).
    + exact (Hall _ _ now (wp_elim _ _ _
        (Second_onSendMessage_sent env w now Hne Huser Hsafe))).
  - split; (split; [contradiction|]); intros _.
    + rewrite (First_onSendMessage_rejected env w msg Hne Huser).
      repeat split; simpl; auto.
    + rewrite (Second_onSendMessage_rejected env w msg Hne Huser).
      repeat split; simpl; auto.
Qed.

Lemma user_message_witness :
  pending_safe example_world /\
  db_execs (before_network (events_of (First.onSendMessage stream_breaks example_world)))
    = [("user", "Hello", ExecOk 1700000000)].
Proof.
  split; [reflexivity|].
  refine (proj1 (proj2 (proj2 (proj1
    (user_message_precedes_network stream_breaks example_world eq_refl)) _))).
  discriminate.
Defined.

(** C3 as stated fails: the text is not empty, the store rejects the INSERT,
    and no user row is appended to the store. *)
Lemma user_row_missing_when_store_rejects :
  let r := First.onSendMessage store_rejects_user example_world in
  chatInput (app example_world) <> "" /\
  ~ (exists m, db (app (world_of r)) = db (app example_world) ++ [m]).
Proof.
  split; [discriminate|].
  intros [m H]. vm_compute in H. discriminate H.
Qed.

(** C5, as the code has it.  When the store rejects the INSERT of the user
    row, the handler sets the status to "Error saving message" and returns:
    the user's label stays in the chat box and the input is cleared, but no
    request is opened, nothing is handed to the main loop, no reply is shown
    and no row is stored. *)
Theorem rejected_user_insert_ends_the_exchange (env : SendEnv) (w : World)
    (msg : string)
    (Htext : chatInput (app w) <> "")
    (Huser : user_exec env = ExecErr msg) :
  let text := chatInput (app w) in
  let holds (r : option unit * World * list Event) :=
    result_of r = Some tt /\
    statusBar (app (world_of r)) = "Error saving message" /\
    db_execs (events_of r) = [("user", text, ExecErr msg)] /\
    db (app (world_of r)) = db (app w) /\
    requests (events_of r) = [] /\
    network_events (events_of r) = [] /\
    idle_adds (events_of r) = [] /\
    idle (world_of r) = idle w /\
    chat_appends (events_of r) = ["user: " +:+ text] /\
    chatHistory (app (world_of r)) = chatHistory (app w) ++ ["user: " +:+ text] /\
    chatInput (app (world_of r)) = "" in
  holds (First.onSendMessage env w) /\ holds (Second.onSendMessage env w).
Proof.
  intros text holds. unfold holds. split.
  - rewrite (First_onSendMessage_rejected env w msg Htext Huser).
    repeat split.
  - rewrite (Second_onSendMessage_rejected env w msg Htext Huser).
    repeat split.
Qed.

Lemma rejected_user_insert_witness :
  chatInput (app example_world) <> "" /\
  user_exec store_rejects_user = ExecErr "database is locked" /\
  requests (events_of (Second.onSendMessage store_rejects_user example_world)) = [].
Proof.
  refine ((fun (Htext : chatInput (app example_world) <> "") =>
            conj Htext (conj eq_refl _)) _).
  - exact (proj1 (proj2 (proj2 (proj2 (proj2 (proj2
      (rejected_user_insert_ends_the_exchange store_rejects_user example_world
         "database is locked" Htext eq_refl))))))).
  - discriminate.
Defined.

(** C5 as stated fails: after the store rejected the user row, no streaming
    request is issued and no assistant label is shown. *)
Lemma exchange_stops_when_store_rejects :
  let r := First.onSendMessage store_rejects_user example_world in
  user_exec store_rejects_user = ExecErr "database is locked" /\
  ~ (exists req, In req (requests (events_of r))) /\
  ~ (exists s, In s (chatHistory (app (world_of r))) /\ is_assistant_text s = true).
Proof.
  split; [reflexivity|]. split.
  - intros [req H]. vm_compute in H. exact H.
  - intros [s [H Hs]]. vm_compute in H. destruct H as [<-|[]].
    discriminate Hs.
Qed.

(** C6, as the code has it.  The request the handler opens holds one
    message, the user message with the submitted text; its model is fixed in
    the code ([gpt-4o-mini] in the first version, [gpt-4o] in the second) and
    its temperature is left unset, whatever the model selector and the
    temperature scale of the window show.  No request is opened when the store
    rejects the user row. *)
Theorem request_is_one_message_fixed_model (env : SendEnv) (w : World)
    (Htext : chatInput (app w) <> "")
    (Hsafe : pending_safe w) :
  let text := chatInput (app w) in
  let sends model (r : option unit * World * list Event) :=
    requests (events_of r) =
      match user_exec env with
      | ExecOk _ =>
          [ {| Messages := [("user", text)]; Model := model; Temperature := None |} ]
      | ExecErr _ => []
      end in
  sends "gpt-4o-mini" (First.onSendMessage env w) /\
  sends "gpt-4o" (Second.onSendMessage env w).
Proof.
  intros text sends. unfold sends. clear sends.
  destruct (user_exec env) as [now|msg] eqn:Huser.
  - split.
    + destruct (wp_elim _ _ _
        (First_onSendMessage_sent env w now Htext Huser Hsafe)) as (a & _ & H).
      exact (sent_requests _ _ _ _ _ _ _ H).
    + destruct (wp_elim _ _ _
        (Second_onSendMessage_sent env w now Htext Huser Hsafe)) as (a & _ & H).
      exact (sent_requests _ _ _ _ _ _ _ H).
  - split.
    + now rewrite (First_onSendMessage_rejected env w msg Htext Huser).
    + now rewrite (Second_onSendMessage_rejected env w msg Htext Huser).
Qed.

Lemma request_witness :
  chatInput (app example_world) <> "" /\
  pending_safe example_world /\
  requests (events_of (First.onSendMessage stream_completes example_world)) =
    [ {| Messages := [("user", "Hello")]; Model := "gpt-4o-mini"; Temperature := None |} ].
Proof.
  refine ((fun (Htext : chatInput (app example_world) <> "") =>
            conj Htext (conj eq_refl _)) _).
  - exact (proj1
      (request_is_one_message_fixed_model stream_completes example_world
         Htext eq_refl)).
  - discriminate.
Defined.

(** C6 as stated fails: the window selects [gpt-4o] at temperature 1.5, and
    the request of the first version names [gpt-4o-mini] and carries no
    temperature. *)
Lemma request_ignores_selector_and_scale :
  let r := First.onSendMessage stream_completes example_world in
  modelCombo (app example_world) = "gpt-4o" /\
  tempScale (app example_world) = 3 # 2 /\
  ~ (exists req, requests (events_of r) = [req] /\
        Model req = modelCombo (app example_world) /\
        Temperature req = Some (tempScale (app example_world))).
Proof.
  split; [reflexivity|]. split; [reflexivity|].
  intros (req & H & Hm & Ht). vm_compute in H.
  injection H as <-. discriminate Ht.
Qed.

(** C10.  From the same window and store, with the same answers of the store
    and of the completion service, the two versions issue the same INSERTs in
    the same order and leave the same store, however the main loop is
    scheduled in either run: nothing for an empty text; otherwise the user
    row with the submitted text and then, if and only if the user row was
    accepted (so that the stream was opened) and the stream ended without
    error, the assistant row with the concatenated deltas. *)
Theorem versions_issue_the_same_inserts (env : SendEnv) (w : World)
    (s1 s2 : list nat)
    (Hsafe : pending_safe w) :
  let text := chatInput (app w) in
  let r1 := First.onSendMessage env (with_sched s1 w) in
  let r2 := Second.onSendMessage env (with_sched s2 w) in
  db_execs (events_of r1) = db_execs (events_of r2) /\
  db (app (world_of r1)) = db (app (world_of r2)) /\
  db_execs (events_of r1) =
    if decide (text = "") then []
    else ("user", text, user_exec env) ::
         match user_exec env, stream_err env with
         | ExecOk _, None => [("assistant", deltas (stream env), assistant_exec env)]
         | _, _ => []
         end.
Proof.
  intros text r1 r2. subst r1 r2.
  assert (Hs1 : pending_safe (with_sched s1 w)) by exact Hsafe.
  assert (Hs2 : pending_safe (with_sched s2 w)) by exact Hsafe.
  destruct (decide (text = "")) as [He|Hne].
  { destruct (onSendMessage_empty env (with_sched s1 w) He) as [E1 _].
    destruct (onSendMessage_empty env (with_sched s2 w) He) as [_ E2].
    rewrite E1, E2. repeat split. }
  destruct (user_exec env) as [now|msg] eqn:Huser.
  - destruct (wp_elim _ _ _
      (First_onSendMessage_sent env (with_sched s1 w) now Hne Huser Hs1))
      as (a1 & _ & H1).
    destruct (wp_elim _ _ _
      (Second_onSendMessage_sent env (with_sched s2 w) now Hne Huser Hs2))
      as (a2 & _ & H2).
    destruct H1, H2. simpl in *.
    rewrite sent_execs0, sent_execs1, sent_db0, sent_db1.
    repeat split.
  - rewrite (First_onSendMessage_rejected env (with_sched s1 w) msg Hne Huser).
    rewrite (Second_onSendMessage_rejected env (with_sched s2 w) msg Hne Huser).
    repeat split.
Qed.

Lemma versions_witness :
  pending_safe example_world /\
  db (app (world_of (First.onSendMessage stream_completes
                       (with_sched [3%nat] example_world)))) =
  db (app (world_of (Second.onSendMessage stream_completes
                       (with_sched [] example_world)))).
Proof.
  split; [reflexivity|].
  exact (proj1 (proj2
    (versions_issue_the_same_inserts stream_completes example_world
       [3%nat] [] eq_refl))).
Defined.


(** ** The image coordinator *)

Lemma run_idle_nothing n w : idle w = [] -> run_idle n w = (Some tt, w, []).
Proof.
  intros H. destruct n as [|n]; [reflexivity|].
  simpl. unfold mbind, M_bind, gets. now rewrite H.
Qed.

(** With an empty queue the main loop has nothing to run between two steps
    of a goroutine. *)
Lemma preempt_nothing w :
  idle w = [] -> exists s, preempt w = (Some tt, with_sched s w, []).
Proof.
  intros H. unfold preempt, mbind, M_bind, gets, modify. simpl.
  destruct (sched w) as [|n rest] eqn:Hs.
  - exists []. unfold mret, M_ret. f_equal. f_equal.
    destruct w; simpl in *; now subst.
  - exists rest. simpl.
    rewrite (run_idle_nothing n (with_cur UIThread (with_sched rest w)) H).
    destruct w; reflexivity.
Qed.

Lemma wp_bg_nothing {A} (m : M A) Q w :
  idle w = [] -> (forall s, wp m Q (with_sched s w)) -> wp (bg m) Q w.
Proof.
  intros Hq H. destruct (preempt_nothing w Hq) as [s Hs].
  specialize (H s). unfold bg, wp, mbind, M_bind in *. rewrite Hs.
  destruct (m (with_sched s w)) as [[[a|] w1] e1]; exact H.
Qed.

Lemma onGenerateImage_versions env :
  First.onGenerateImage env = onGenerateImage_for ImageModelDallE2 env /\
  Second.onGenerateImage env = onGenerateImage_for ImageModelDallE3 env.
Proof. split; reflexivity. Qed.

(** With nothing else queued, a call of the handler followed by the main
    loop amounts to the handler's own closure run in the [generating]
    world. *)
Lemma generation_run (model : string) (env : ImageEnv) (w : World)
    (Q : unit -> World -> list Event -> Prop) :
  imagePrompt (app w) <> "" -> idle w = [] ->
  (forall s,
     wp (imageResult env)
        (fun _ w2 e2 => Q tt w2 (generation_events model env w ++ e2))
        (generating s w)) ->
  wp (onGenerateImage_for model env;; main_loop) Q w.
Proof.
  intros Hprompt Hidle H. unfold onGenerateImage_for.
  wp_steps. destruct (decide (imagePrompt (app w) = "")); [contradiction|].
  wp_steps. apply wp_bg_nothing; [exact Hidle|]. intros s1. wp_steps.
  apply wp_bg_nothing; [exact Hidle|]. intros s2. wp_steps.
  unfold main_loop. wp_steps. simpl. rewrite Hidle. simpl. wp_steps.
  simpl. rewrite Hidle. simpl. wp_steps.
  eapply wp_mono.
  - replace (with_idle _ _) with (generating s2 w);
      [apply (H s2)|].
    unfold generating. destruct w; simpl in *; subst; reflexivity.
  - intros [] w2 e2 HQ. wp_steps. simpl. rewrite app_nil_r. exact HQ.
Qed.


Ltac in_events :=
  simpl; repeat first [ left; reflexivity | right ].

Lemma request_failure model env w err :
  imagePrompt (app w) <> "" -> idle w = [] ->
  generate_result env = GenerateErr err ->
  wp (onGenerateImage_for model env;; main_loop)
     (fun _ w' evs =>
        statusBar (app w') = "Image Generation Error: " +:+ err /\
        In {| thread := cur w;
              action := UiAct (StatusSetText ("Image Generation Error: " +:+ err)) |} evs /\
        imageDisplay (app w') = None /\ imageSpinner (app w') = false /\
        files w' = files w /\ fs_ops evs = []) w.
Proof.
  intros Hprompt Hidle Hgen. apply generation_run; [assumption..|].
  intros s. unfold imageResult. wp_steps. rewrite Hgen. wp_steps.
  simpl. repeat split. in_events.
Qed.

Lemma decode_failure model env w b rest err :
  imagePrompt (app w) <> "" -> idle w = [] ->
  generate_result env = GenerateOk (b :: rest) ->
  DecodeString env b = inl err ->
  wp (onGenerateImage_for model env;; main_loop)
     (fun _ w' evs =>
        statusBar (app w') = "Image Decode Error: " +:+ err /\
        In {| thread := cur w;
              action := UiAct (StatusSetText ("Image Decode Error: " +:+ err)) |} evs /\
        imageDisplay (app w') = None /\ imageSpinner (app w') = false /\
        files w' = files w /\ fs_ops evs = []) w.
Proof.
  intros Hprompt Hidle Hgen Hdec. apply generation_run; [assumption..|].
  intros s. unfold imageResult. wp_steps. rewrite Hgen, Hdec. wp_steps.
  simpl. repeat split. in_events.
Qed.

Lemma write_failure model env w b rest imageBytes err :
  imagePrompt (app w) <> "" -> idle w = [] ->
  generate_result env = GenerateOk (b :: rest) ->
  DecodeString env b = inr imageBytes ->
  write_result env = NotOpened err \/ (exists n, write_result env = Short n err) ->
  wp (onGenerateImage_for model env;; main_loop)
     (fun _ w' evs =>
        statusBar (app w') = "File Error: " +:+ err /\
        In {| thread := cur w;
              action := UiAct (StatusSetText ("File Error: " +:+ err)) |} evs /\
        imageDisplay (app w') = None /\ imageSpinner (app w') = false) w.
Proof.
  intros Hprompt Hidle Hgen Hdec Hwr. apply generation_run; [assumption..|].
  intros s. unfold imageResult. wp_steps. rewrite Hgen, Hdec. wp_steps.
  simpl. destruct (userConfigDir w) as [dir|]; wp_steps;
    destruct Hwr as [Hwr|[n Hwr]]; rewrite Hwr; wp_steps;
    simpl; repeat split; in_events.
Qed.

(** C7, as the code has it.  [onGenerateImage] clears the picture before
    it sends the request.  When the request, the decoding or the writing of
    the cache file then fails, the status bar reads the error of that stage,
    the spinner is stopped, and the picture stays empty: the image displayed
    before the call is not there any more.  On a request error and on a
    decode error no file-system call is made and the files are what they
    were. *)
Theorem failed_generation_reports_and_leaves_picture_cleared
    (env : ImageEnv) (w : World)
    (Hprompt : imagePrompt (app w) <> "")
    (Hidle : idle w = []) :
  let holds (r : option unit * World * list Event) :=
    (forall err,
       generate_result env = GenerateErr err ->
       generation_failed ("Image Generation Error: " +:+ err) w r /\
       files (world_of r) = files w /\ fs_ops (events_of r) = []) /\
    (forall b rest err,
       generate_result env = GenerateOk (b :: rest) ->
       DecodeString env b = inl err ->
       generation_failed ("Image Decode Error: " +:+ err) w r /\
       files (world_of r) = files w /\ fs_ops (events_of r) = []) /\
    (forall b rest imageBytes err,
       generate_result env = GenerateOk (b :: rest) ->
       DecodeString env b = inr imageBytes ->
       write_result env = NotOpened err \/ (exists n, write_result env = Short n err) ->
       generation_failed ("File Error: " +:+ err) w r) in
  holds ((First.onGenerateImage env;; main_loop) w) /\
  holds ((Second.onGenerateImage env;; main_loop) w).
Proof.
  intros holds.
  assert (Hmodel : forall model, holds ((onGenerateImage_for model env;; main_loop) w)).
  { intros model. unfold holds. split; [|split].
    - intros err Hgen.
      destruct (wp_elim _ _ _ (request_failure model env w err Hprompt Hidle Hgen))
        as (a & Hres & H1 & H2 & H3 & H4 & H5 & H6).
      split; [|split; assumption].
      constructor; try assumption. exact (result_unit _ _ Hres).
    - intros b rest err Hgen Hdec.
      destruct (wp_elim _ _ _
        (decode_failure model env w b rest err Hprompt Hidle Hgen Hdec))
        as (a & Hres & H1 & H2 & H3 & H4 & H5 & H6).
      split; [|split; assumption].
      constructor; try assumption. exact (result_unit _ _ Hres).
    - intros b rest imageBytes err Hgen Hdec Hwr.
      destruct (wp_elim _ _ _
        (write_failure model env w b rest imageBytes err Hprompt Hidle Hgen Hdec Hwr))
        as (a & Hres & H1 & H2 & H3 & H4).
      constructor; try assumption. exact (result_unit _ _ Hres). }
  split; apply Hmodel.
Qed.

Lemma failed_generation_witness :
  imagePrompt (app example_world) <> "" /\
  idle example_world = [] /\
  statusBar (app (world_of ((Second.onGenerateImage image_decode_fails;; main_loop)
                              example_world))) =
    "Image Decode Error: illegal base64 data at input byte 0".
Proof.
  refine ((fun (Hprompt : imagePrompt (app example_world) <> "") =>
            conj Hprompt (conj eq_refl _)) _).
  - exact (gf_status _ _ _ (proj1 (proj1 (proj2 (proj2
      (failed_generation_reports_and_leaves_picture_cleared
         image_decode_fails example_world Hprompt eq_refl)))
      "!!!" [] "illegal base64 data at input byte 0" eq_refl eq_refl))).
  - discriminate.
Defined.

(** C7 as stated fails: an image is on display, the request fails, and
    afterwards the picture is empty. *)
Lemma failed_generation_clears_previous_image :
  let r := (First.onGenerateImage image_request_fails;; main_loop) example_world in
  generate_result image_request_fails = GenerateErr "429 Too Many Requests" /\
  imageDisplay (app example_world) = Some {| texture_bytes := [Byte.x89; Byte.x50] |} /\
  imageDisplay (app (world_of r)) <> imageDisplay (app example_world).
Proof.
  split; [reflexivity|]. split; [reflexivity|].
  vm_compute. discriminate.
Qed.

(** ** Saving the image *)



Lemma buffers_fuel_concat (n : nat) : forall fuel data,
  (length data <= fuel)%nat -> concat (buffers_fuel fuel n data) = data.
Proof.
  induction fuel as [|fuel IH]; intros data Hlen.
  - destruct data; [reflexivity | simpl in Hlen; lia].
  - destruct data as [|x data]; [reflexivity|].
    cbn [buffers_fuel concat]. rewrite IH.
    + apply take_drop.
    + rewrite length_drop. simpl in *. lia.
Qed.

Lemma buffers_concat (n : nat) (data : list Byte.byte) :
  concat (buffers n data) = data.
Proof. apply buffers_fuel_concat. reflexivity. Qed.

Lemma ioCopy_copies tmpPath bufs : forall fail acc w,
  idle w = [] -> files w !! tmpPath = Some acc ->
  wp (ioCopy tmpPath bufs fail)
     (fun res w' evs => copied_buffers tmpPath acc bufs w res w' evs) w.
Proof.
  induction bufs as [|buf rest IH]; intros fail acc w Hidle Htmp.
  - assert (Hnil : forall res, copied_buffers tmpPath acc [] w res w []).
    { intros res. constructor; try reflexivity; try assumption.
      - constructor.
      - exists []. now rewrite app_nil_r.
      - intros _. simpl. now rewrite app_nil_r. }
    destruct fail as [[[|n] err]|]; simpl; wp_steps; apply Hnil.
  - assert (Hstep : forall fail',
        wp (bg (fs_do (Write tmpPath buf));; ioCopy tmpPath rest fail')
           (fun res w' evs => copied_buffers tmpPath acc (buf :: rest) w res w' evs) w).
    { intros fail'. wp_steps. apply wp_bg_nothing; [exact Hidle|]. intros s. wp_steps.
      eapply wp_mono.
      - apply (IH fail' (acc ++ buf)); [exact Hidle|].
        simpl. rewrite Htmp. apply lookup_insert_eq.
      - intros res w' evs [Hi Hr Hev Hot [written Hpa] Hfu].
        simpl in Hr, Hot. rewrite Htmp in Hr, Hot.
        constructor; simpl; rewrite ?Htmp; try assumption.
        + constructor; [eexists; reflexivity | assumption].
        + intros p Hp. rewrite (Hot p Hp). now rewrite lookup_insert_ne.
        + exists (buf ++ written). now rewrite app_assoc.
        + intros Hres. rewrite (Hfu Hres). now rewrite app_assoc. }
    destruct fail as [[[|n] err]|]; simpl.
    + wp_steps. constructor; try reflexivity; try assumption.
      * constructor.
      * exists []. now rewrite app_nil_r.
      * discriminate.
    + apply Hstep.
    + apply Hstep.
Qed.

Ltac spared :=
  rewrite ?app_nil_r;
  repeat
    match goal with
    | |- Forall _ [] => constructor
    | |- Forall _ (_ :: _) =>
        constructor;
        [ unfold spares; eexists; split;
          [ reflexivity
          | let Hr := fresh "Hr" in
            simpl; intros Hr;
            first [ reflexivity | discriminate Hr
                  | apply bool_decide_eq_false; assumption ] ]
        | ]
    | |- Forall _ (_ ++ _) => apply Forall_app; split
    | |- Forall _ _ => assumption
    end.

Lemma copyImageFile_done (env : CopyEnv) (src dest : string) (w : World) :
  idle w = [] ->
  (forall tmpPath, temp_path env dest = Some tmpPath ->
     files w !! dest = None -> tmpPath <> dest) ->
  wp (copyImageFile env src dest)
     (fun res w' evs => copy_done env src dest w res w' evs) w.
Proof.
  intros Hidle Hfresh. unfold copyImageFile.
  wp_steps. apply wp_bg_nothing; [exact Hidle|]. intros s1. wp_steps.
  destruct (mkdir_err env) as [err|].
  { wp_steps. constructor; simpl; try reflexivity; try assumption.
    - spared.
    - discriminate. }
  wp_steps. apply wp_bg_nothing; [exact Hidle|]. intros s2. wp_steps.
  simpl. cbv zeta.
  destruct (open_err env) as [err|]; [|destruct (files w !! src) as [data|] eqn:Hsrc].
  1, 3: (wp_steps; constructor; simpl; try reflexivity; try assumption;
         [spared | discriminate]).
  wp_steps. apply wp_bg_nothing; [exact Hidle|]. intros s3. wp_steps.
  simpl. cbv zeta. unfold temp_path in *.
  destruct (temp_rand env) as [err|rand] eqn:Hrand.
  { wp_steps. constructor; simpl; try reflexivity; try assumption;
      [spared | discriminate]. }
  set (tmpPath := filepath_Join (filepath_Dir dest) (rand +:+ ".png")) in *.
  destruct (files w !! tmpPath) as [old|] eqn:Htmp.
  { wp_steps. constructor; simpl; try reflexivity; try assumption;
      [spared | discriminate]. }
  assert (Hne : tmpPath <> dest).
  { intros E. refine (Hfresh tmpPath eq_refl _ E). now rewrite <- E. }
  wp_steps.
  eapply wp_mono.
  { apply (ioCopy_copies tmpPath _ (copy_fail env) []); [exact Hidle|].
    simpl. apply lookup_insert_eq. }
  intros copied w3 e3 [Hi3 Hr3 Hev3 Hot3 [written Hpa3] Hfu3]. simpl in *.
  assert (Hsp3 : Forall (spares dest) e3).
  { eapply Forall_impl; [exact Hev3|]. intros e [buf He]. exists (Write tmpPath buf).
    split; [exact He|]. intros _. simpl. now apply bool_decide_eq_false. }
  assert (Hdest3 : files w3 !! dest = files w !! dest).
  { rewrite (Hot3 dest) by congruence. now rewrite lookup_insert_ne. }
  destruct copied as [err|].
  - wp_steps. apply wp_bg_nothing; [exact Hi3|]. intros s4. wp_steps.
    constructor; simpl; try assumption.
    + rewrite !replay_fs_app. simpl. now rewrite Hr3.
    + spared.
    + intros _ _. now rewrite lookup_delete_ne.
    + discriminate.
  - specialize (Hfu3 eq_refl). rewrite buffers_concat in Hfu3. simpl in Hfu3.
    wp_steps. apply wp_bg_nothing; [exact Hi3|]. intros s4. wp_steps.
    destruct (rename_err env) as [err|].
    + wp_steps. apply wp_bg_nothing; [exact Hi3|]. intros s5. wp_steps.
      constructor; simpl; try assumption.
      * rewrite !replay_fs_app. simpl. now rewrite Hr3.
      * spared.
      * intros _ _. now rewrite lookup_delete_ne.
      * discriminate.
    + wp_steps. apply wp_bg_nothing; [exact Hi3|]. intros s5. wp_steps.
      constructor; simpl; try assumption.
      * rewrite !replay_fs_app. simpl. now rewrite Hr3.
      * spared.
      * discriminate.
      * intros _. rewrite Hfu3, Hsrc. split; [now eexists|]. split.
        -- rewrite lookup_delete_ne by congruence. now rewrite lookup_insert_eq.
        -- exists tmpPath. split; [unfold temp_path; now rewrite Hrand|].
           apply lookup_delete_eq.
Qed.



(** ** Threads *)

Lemma affine_ret {A} P t (a : A) : affine P t (mret a).
Proof. intros w Hc. split; [exact (List.Forall_nil _) | intros _; exact Hc]. Qed.

Lemma affine_panic {A} P t : affine P t (@panic A).
Proof.
  intros w Hc. split; [exact (List.Forall_nil _) | intros H; now contradiction H].
Qed.

Lemma affine_gets {A} P t (f : World -> A) : affine P t (gets f).
Proof. intros w Hc. split; [exact (List.Forall_nil _) | intros _; exact Hc]. Qed.

Lemma affine_modify P t (f : World -> World) :
  (forall w, cur (f w) = cur w) -> affine P t (modify f).
Proof.
  intros Hf w Hc.
  split; [exact (List.Forall_nil _) | intros _].
  change (cur (f w) = t). now rewrite Hf.
Qed.

Lemma affine_bind P {A B} t (m : M A) (f : A -> M B) :
  affine P t m -> (forall a, affine P t (f a)) -> affine P t (m ≫= f).
Proof.
  intros Hm Hf w Hc. specialize (Hm w Hc).
  unfold mbind, M_bind, events_of, result_of, world_of in *.
  destruct (m w) as [[[a|] w1] e1]; simpl in *.
  - destruct Hm as [He1 Hc1]. specialize (Hc1 ltac:(discriminate)).
    specialize (Hf a w1 Hc1).
    unfold events_of, result_of, world_of in Hf.
    destruct (f a w1) as [[r w2] e2]; simpl in *.
    destruct Hf as [He2 Hc2]. split; [|exact Hc2].
    apply Forall_app. now split.
  - destruct Hm as [He1 _]. split; [exact He1 | intros H; now contradiction H].
Qed.

Lemma affine_emit P t (a : Action) :
  match a with UiAct u => P u = true -> t = UIThread | _ => True end ->
  affine P t (emit a).
Proof.
  intros Ha w Hc. split; [|intros _; exact Hc].
  constructor; [|constructor]. unfold on_ui_thread. simpl.
  destruct a; try exact I. intros H. rewrite Hc. exact (Ha H).
Qed.

Lemma affine_ui_on_ui P (a : UiAction) : affine P UIThread (ui a).
Proof.
  apply affine_bind; [now apply affine_modify|].
  intros _. apply affine_emit. reflexivity.
Qed.

Lemma affine_ui_dialog P t (a : UiAction) :
  P a = false -> affine P t (ui a).
Proof.
  intros Ha. apply affine_bind; [now apply affine_modify|].
  intros _. apply affine_emit. rewrite Ha. discriminate.
Qed.

Lemma affine_fs_do P t (op : FsOp) : affine P t (fs_do op).
Proof.
  apply affine_bind; [now apply affine_modify|].
  intros _. now apply affine_emit.
Qed.

Lemma affine_idleAdd P t (cb : Callback) : affine P t (idleAdd cb).
Proof.
  apply affine_bind; [now apply affine_modify|].
  intros _. now apply affine_emit.
Qed.

Lemma affine_dbExec P t role content r : affine P t (dbExec role content r).
Proof.
  destruct r; simpl.
  - apply affine_bind; [now apply affine_modify|]. intros _.
    apply affine_bind; [now apply affine_emit|]. intros _. apply affine_ret.
  - apply affine_bind; [now apply affine_emit|]. intros _. apply affine_ret.
Qed.

Lemma affine_newVar P t s : affine P t (newVar s).
Proof.
  apply affine_bind; [apply affine_gets|]. intros v.
  apply affine_bind; [now apply affine_modify|]. intros _. apply affine_ret.
Qed.

Lemma affine_readVar P t v : affine P t (readVar v).
Proof. apply affine_gets. Qed.

Lemma affine_appendVar P t v s : affine P t (appendVar v s).
Proof.
  apply affine_bind; [apply affine_readVar|]. intros old.
  now apply affine_modify.
Qed.

Lemma affine_configDir P t : affine P t configDir.
Proof.
  apply affine_bind; [apply affine_gets|]. intros [dir|].
  - apply affine_bind; [apply affine_fs_do|]. intros _. apply affine_ret.
  - apply affine_gets.
Qed.

Lemma affine_setStatus P message : affine P UIThread (setStatus message).
Proof. apply affine_ui_on_ui. Qed.

Lemma affine_addMessageToUI P role content : affine P UIThread (addMessageToUI role content).
Proof.
  apply affine_bind; [apply affine_ui_on_ui|]. intros _. apply affine_ui_on_ui.
Qed.

Lemma affine_appendLabel P text : affine P UIThread (appendLabel text).
Proof.
  apply affine_bind; [apply affine_gets|]. intros label.
  apply affine_bind; [apply affine_ui_on_ui|]. intros _. apply affine_ret.
Qed.

Ltac affine_step :=
  lazymatch goal with
  | |- affine _ _ (_ ≫= _) => apply affine_bind; [|intros ?]
  | |- affine _ _ (mret _) => apply affine_ret
  | |- affine _ _ (ret _) => apply affine_ret
  | |- affine _ _ panic => apply affine_panic
  | |- affine _ _ (gets _) => apply affine_gets
  | |- affine _ _ (emit _) => apply affine_emit; exact I
  | |- affine _ UIThread (ui _) => apply affine_ui_on_ui
  | |- affine _ _ (ui _) => apply affine_ui_dialog; reflexivity
  | |- affine _ _ (fs_do _) => apply affine_fs_do
  | |- affine _ _ (idleAdd _) => apply affine_idleAdd
  | |- affine _ _ (dbExec _ _ _) => apply affine_dbExec
  | |- affine _ _ (newVar _) => apply affine_newVar
  | |- affine _ _ (readVar _) => apply affine_readVar
  | |- affine _ _ (appendVar _ _) => apply affine_appendVar
  | |- affine _ _ configDir => apply affine_configDir
  | |- affine _ UIThread (setStatus _) => apply affine_setStatus
  | |- affine _ UIThread (addMessageToUI _ _) => apply affine_addMessageToUI
  | |- affine _ UIThread (appendLabel _) => apply affine_appendLabel
  | |- affine _ _ (match ?x with _ => _ end) => destruct x
  | |- affine _ _ (if ?x then _ else _) => destruct x
  end.

Ltac affine_steps := repeat affine_step.

(** The closures run on the UI thread. *)
Lemma affine_run_callback P cb : affine P UIThread (run_callback cb).
Proof.
  destruct cb; simpl; try unfold imageResult; affine_steps.
Qed.

Lemma affine_run_idle P n : affine P UIThread (run_idle n).
Proof.
  induction n as [|n IH]; simpl; affine_steps.
  - now apply affine_modify.
  - apply affine_run_callback.
  - exact IH.
Qed.

Lemma affine_main_loop P : affine P UIThread main_loop.
Proof. unfold main_loop. affine_steps. apply affine_run_idle. Qed.

(** The main loop runs its closures on the UI thread, whichever goroutine
    it interrupts. *)
Lemma affine_preempt P t : affine P t preempt.
Proof.
  intros w Hc.
  pose proof (fun n rest =>
    affine_run_idle P n (with_cur UIThread (with_sched rest w)) eq_refl) as Hrun.
  unfold preempt, mbind, M_bind, gets, modify, events_of, result_of, world_of in *.
  simpl. destruct (sched w) as [|n rest]; simpl.
  - split; [exact (List.Forall_nil _) | intros _; exact Hc].
  - specialize (Hrun n rest).
    destruct (run_idle n (with_cur UIThread (with_sched rest w))) as [[[[]|] w1] e1];
      simpl in *.
    + split; [now rewrite app_nil_r | intros _; exact Hc].
    + split; [apply Hrun | intros H; now contradiction H].
Qed.

Lemma affine_bg {A} P t (m : M A) : affine P t m -> affine P t (bg m).
Proof. intros Hm. unfold bg. apply affine_bind; [apply affine_preempt | intros _; exact Hm]. Qed.

Lemma affine_go_ P t (body : M unit) : affine P Goroutine body -> affine P t (go_ body).
Proof.
  intros Hb w Hc. unfold go_, mbind, M_bind, gets, modify. simpl.
  specialize (Hb (with_cur Goroutine w) eq_refl).
  unfold events_of, result_of, world_of in *.
  destruct (body (with_cur Goroutine w)) as [[[[]|] w1] e1]; simpl in *.
  - destruct Hb as [He _]. split; [now rewrite app_nil_r | intros _; exact Hc].
  - destruct Hb as [He _]. split; [exact He | intros H; now contradiction H].
Qed.

Ltac affine_walk :=
  repeat first
    [ affine_step
    | lazymatch goal with
      | |- affine _ _ (bg _) => apply affine_bg
      | |- affine _ _ (go_ _) => apply affine_go_
      end ].

Lemma affine_First_stream_loop P assistantLabel response events :
  affine P Goroutine (First.stream_loop assistantLabel response events).
Proof.
  induction events as [|evt rest IH]; simpl; affine_walk; exact IH.
Qed.

Lemma affine_Second_stream_loop P response events :
  affine P Goroutine (Second.stream_loop response events).
Proof.
  induction events as [|evt rest IH]; simpl; affine_walk; exact IH.
Qed.

Lemma affine_First_onSendMessage P env : affine P UIThread (First.onSendMessage env).
Proof.
  unfold First.onSendMessage. affine_walk; apply affine_First_stream_loop.
Qed.

Lemma affine_Second_onSendMessage P env : affine P UIThread (Second.onSendMessage env).
Proof.
  unfold Second.onSendMessage. affine_walk; apply affine_Second_stream_loop.
Qed.

Lemma affine_onGenerateImage_for P model env :
  affine P UIThread (onGenerateImage_for model env).
Proof. unfold onGenerateImage_for. affine_walk. Qed.

Lemma affine_ioCopy P tmpPath bufs : forall fail,
  affine P Goroutine (ioCopy tmpPath bufs fail).
Proof.
  induction bufs as [|buf rest IH]; intros fail;
    destruct fail as [[[|n] err]|]; simpl; affine_walk; apply IH.
Qed.

Lemma affine_copyImageFile P env src dest :
  affine P Goroutine (copyImageFile env src dest).
Proof.
  unfold copyImageFile. affine_walk; apply affine_ioCopy.
Qed.

(** In [onSaveImage] the goroutine that waits for the file chooser destroys
    the chooser itself; what the window displays is left to the UI thread. *)
Lemma affine_onSaveImage env : affine changes_display UIThread (onSaveImage env).
Proof.
  unfold onSaveImage. affine_walk; apply affine_copyImageFile.
Qed.

Lemma affine_then_main_loop P (handler : M unit) (w : World) :
  affine P UIThread handler -> cur w = UIThread ->
  Forall (on_ui_thread P) (events_of ((handler;; main_loop) w)).
Proof.
  intros Hh Hc.
  apply (affine_bind P UIThread handler (fun _ => main_loop) Hh
           (fun _ => affine_main_loop P) w Hc).
Qed.

(** C9.  A handler is called on the UI thread.  In every run of a handler
    followed by the main loop, under every schedule:
    - in [onSendMessage] and [onGenerateImage], both versions, every toolkit
      call is made by the UI thread: the goroutine that consumes the stream
      and the goroutine of the image request only queue closures with
      [glib.IdleAdd], and the main loop runs them;
    - in [onSaveImage] every call that changes the chat labels, the picture
      or the status text (or the input, the spinner, the scroll position) is
      made by the UI thread: the goroutine of the file copy queues its status
      with [glib.IdleAdd]. *)
Theorem display_changes_only_on_ui_thread (w : World) (Hui : cur w = UIThread) :
  (forall env, Forall (on_ui_thread any_call)
     (events_of ((First.onSendMessage env;; main_loop) w))) /\
  (forall env, Forall (on_ui_thread any_call)
     (events_of ((Second.onSendMessage env;; main_loop) w))) /\
  (forall env, Forall (on_ui_thread any_call)
     (events_of ((First.onGenerateImage env;; main_loop) w))) /\
  (forall env, Forall (on_ui_thread any_call)
     (events_of ((Second.onGenerateImage env;; main_loop) w))) /\
  (forall env, Forall (on_ui_thread changes_display)
     (events_of ((onSaveImage env;; main_loop) w))).
Proof.
  repeat split; intros env; apply affine_then_main_loop; try exact Hui.
  - apply affine_First_onSendMessage.
  - apply affine_Second_onSendMessage.
  - apply (affine_onGenerateImage_for any_call ImageModelDallE2).
  - apply (affine_onGenerateImage_for any_call ImageModelDallE3).
  - apply affine_onSaveImage.
Qed.

Lemma display_changes_witness :
  cur world_with_cache = UIThread /\
  Forall (on_ui_thread changes_display)
    (events_of ((onSaveImage save_accepted;; main_loop) world_with_cache)).
Proof.
  split; [reflexivity|].
  exact (proj2 (proj2 (proj2 (proj2
    (display_changes_only_on_ui_thread world_with_cache eq_refl)))) save_accepted).
Defined.

(** * Reload, display, saving and shutdown *)

(** ** The store and the reload of the history *)

(** An append adds one entry to what [list_all] returns, the role and
    content that were appended, and keeps the entries that were there:
    whatever the clock reads, what was appended is read back. *)
Theorem list_all_after_insert (now : Z) (r c : string) (d : list Store.Message) :
  Permutation (Store.list_all (Store.insert now r c d)) ((r, c) :: Store.list_all d) /\
  In (r, c) (Store.list_all (Store.insert now r c d)).
Proof.
  assert (H : Permutation (Store.list_all (Store.insert now r c d))
                          ((r, c) :: Store.list_all d)).
  { unfold Store.list_all.
    change ((r, c) :: map (fun m => (Store.role m, Store.content m))
                          (Store.order_by_timestamp d))
      with (map (fun m => (Store.role m, Store.content m))
              ({| Store.id := Store.next_id d; Store.role := r;
                  Store.content := c; Store.timestamp := now |}
               :: Store.order_by_timestamp d)).
    apply Permutation_map.
    rewrite (proj1 (order_by_timestamp_sorted _)).
    rewrite (proj1 (order_by_timestamp_sorted d)).
    unfold Store.insert. symmetry. apply Permutation_cons_append. }
  split; [exact H|].
  eapply Permutation_in; [symmetry; exact H | left; reflexivity].
Qed.





(** ** The image coordinator: success, late failure, panic *)

Lemma bind_run {A B} (m : M A) (f : A -> M B) w a w1 e1 :
  m w = (Some a, w1, e1) ->
  (m ≫= f) w = (result_of (f a w1), world_of (f a w1), e1 ++ events_of (f a w1)).
Proof.
  intros H. unfold mbind, M_bind, result_of, world_of, events_of. rewrite H.
  destruct (f a w1) as [[r w2] e2]. reflexivity.
Qed.

Lemma main_loop_single (cb : Callback) (w : World) :
  idle w = [cb] ->
  main_loop w =
    (result_of (run_callback cb (with_idle (fun _ => []) w)),
     world_of (run_callback cb (with_idle (fun _ => []) w)),
     events_of (run_callback cb (with_idle (fun _ => []) w))).
Proof.
  intros Hq. unfold main_loop.
  rewrite (bind_run _ _ w (length (idle w)) w []) by reflexivity.
  rewrite Hq. cbn [length run_idle].
  rewrite (bind_run _ _ w (idle w) w []) by reflexivity.
  rewrite Hq.
  rewrite (bind_run _ _ w tt (with_idle (fun _ => []) w) []) by reflexivity.
  unfold mbind, M_bind, result_of, world_of, events_of.
  destruct (run_callback cb (with_idle (fun _ => []) w)) as [[[[]|] w1] e1]; simpl;
    [now rewrite app_nil_r | reflexivity].
Qed.

(** With nothing else queued, the handler returns with its closure queued. *)
Lemma generation_queues (model : string) (env : ImageEnv) (w : World) :
  imagePrompt (app w) <> "" -> idle w = [] ->
  exists s,
    onGenerateImage_for model env w =
      (Some tt, generation_queued env s w, generation_events model env w).
Proof.
  intros Hprompt Hidle.
  assert (H : wp (onGenerateImage_for model env)
            (fun _ w' evs => exists s,
               w' = generation_queued env s w /\ evs = generation_events model env w) w).
  { unfold onGenerateImage_for.
    wp_steps. destruct (decide (imagePrompt (app w) = "")); [contradiction|].
    wp_steps. apply wp_bg_nothing; [exact Hidle|]. intros s1. wp_steps.
    apply wp_bg_nothing; [exact Hidle|]. intros s2. wp_steps.
    exists s2. split; [|reflexivity].
    unfold generation_queued, generating.
    destruct w; simpl in *; subst; reflexivity. }
  destruct (wp_result _ _ _ H) as ([] & Heq & s & Hw & He).
  exists s. rewrite Heq, Hw, He. reflexivity.
Qed.

(** The whole run is the run of the closure in the [generating] world. *)
Lemma generation_run_eq (model : string) (env : ImageEnv) (w : World) :
  imagePrompt (app w) <> "" -> idle w = [] ->
  exists s,
    (onGenerateImage_for model env;; main_loop) w =
      (result_of (imageResult env (generating s w)),
       world_of (imageResult env (generating s w)),
       generation_events model env w ++ events_of (imageResult env (generating s w))).
Proof.
  intros Hprompt Hidle.
  destruct (generation_queues model env w Hprompt Hidle) as [s Hs].
  exists s. rewrite (bind_run _ _ _ _ _ _ Hs).
  rewrite (main_loop_single (ImageResult env)) by reflexivity.
  unfold result_of, world_of, events_of. simpl.
  replace (with_idle (fun _ => []) (generation_queued env s w)) with (generating s w);
    [reflexivity|].
  unfold generation_queued, generating. destruct w; simpl in *; subst; reflexivity.
Qed.

Lemma files_generating s w : files (generating s w) = files w.
Proof. reflexivity. Qed.

(** When the request, the decoding, the writing of the cache file and the
    making of the texture all succeed, the cache file holds the decoded bytes
    of the first image of the answer, the picture shows the texture made of
    those bytes, the spinner is stopped and the status reads "Image generated
    successfully"; the conversation and the store are untouched.  Only the
    first element of [result.Data] is looked at. *)
Theorem generated_image_is_cached_and_displayed
    (env : ImageEnv) (w : World) (b : string) (rest : list string)
    (imageBytes : list Byte.byte)
    (Hprompt : imagePrompt (app w) <> "")
    (Hidle : idle w = [])
    (Hgen : generate_result env = GenerateOk (b :: rest))
    (Hdec : DecodeString env b = inr imageBytes)
    (Hwrite : write_result env = Written)
    (Htex : texture_err env = None) :
  let holds (r : option unit * World * list Event) :=
    result_of r = Some tt /\
    imageDisplay (app (world_of r)) = Some {| texture_bytes := imageBytes |} /\
    statusBar (app (world_of r)) = "Image generated successfully" /\
    imageSpinner (app (world_of r)) = false /\
    files (world_of r) = <[cache_path w := imageBytes]> (files w) /\
    fs_ops (events_of r) =
      match userConfigDir w with
      | Some dir =>
          [MkdirAll (filepath_Join dir "openai-gtk") None;
           WriteFile (cache_path w) imageBytes Written]
      | None => [WriteFile (cache_path w) imageBytes Written]
      end /\
    chatHistory (app (world_of r)) = chatHistory (app w) /\
    db (app (world_of r)) = db (app w) /\
    idle (world_of r) = [] in
  holds ((First.onGenerateImage env;; main_loop) w) /\
  holds ((Second.onGenerateImage env;; main_loop) w).
Proof.
  intros holds.
  assert (Hmodel : forall model, holds ((onGenerateImage_for model env;; main_loop) w)).
  { intros model.
    assert (H : wp (onGenerateImage_for model env;; main_loop)
              (fun _ w' evs =>
                 imageDisplay (app w') = Some {| texture_bytes := imageBytes |} /\
                 statusBar (app w') = "Image generated successfully" /\
                 imageSpinner (app w') = false /\
                 files w' = <[cache_path w := imageBytes]> (files w) /\
                 fs_ops evs =
                   match userConfigDir w with
                   | Some dir =>
                       [MkdirAll (filepath_Join dir "openai-gtk") None;
                        WriteFile (cache_path w) imageBytes Written]
                   | None => [WriteFile (cache_path w) imageBytes Written]
                   end /\
                 chatHistory (app w') = chatHistory (app w) /\
                 db (app w') = db (app w) /\ idle w' = []) w).
    { apply generation_run; [assumption..|].
      intros s. unfold imageResult. wp_steps. rewrite Hgen, Hdec. wp_steps.
      unfold cache_path. simpl.
      destruct (userConfigDir w) as [dir|]; wp_steps; rewrite Hwrite; wp_steps;
        rewrite Htex; wp_steps; simpl; repeat split; assumption. }
    destruct (wp_elim _ _ _ H) as (a & Hres & Hrest).
    split; [exact (result_unit _ _ Hres) | exact Hrest]. }
  split; apply Hmodel.
Qed.

Lemma generated_image_witness :
  imagePrompt (app example_world) <> "" /\
  idle example_world = [] /\
  files (world_of ((First.onGenerateImage image_succeeds;; main_loop) example_world))
    = <["/home/user/.config/openai-gtk/temp.png" := [Byte.x89; Byte.x50; Byte.x4e]]> ∅.
Proof.
  refine ((fun (Hprompt : imagePrompt (app example_world) <> "") =>
            conj Hprompt (conj eq_refl _)) _).
  - exact (proj1 (proj2 (proj2 (proj2 (proj2 (proj1
      (generated_image_is_cached_and_displayed image_succeeds example_world
         "iVBO" [] [Byte.x89; Byte.x50; Byte.x4e]
         Hprompt eq_refl eq_refl eq_refl eq_refl eq_refl))))))).
  - discriminate.
Defined.

(** When everything succeeds but the making of the texture, the cache file
    has already been overwritten with the new bytes, while the picture stays
    empty and the status reads the texture error: what Save would write is
    then an image that was never displayed. *)
Theorem texture_failure_leaves_new_cache_and_no_picture
    (env : ImageEnv) (w : World) (b : string) (rest : list string)
    (imageBytes : list Byte.byte) (err : string)
    (Hprompt : imagePrompt (app w) <> "")
    (Hidle : idle w = [])
    (Hgen : generate_result env = GenerateOk (b :: rest))
    (Hdec : DecodeString env b = inr imageBytes)
    (Hwrite : write_result env = Written)
    (Htex : texture_err env = Some err) :
  let holds (r : option unit * World * list Event) :=
    result_of r = Some tt /\
    imageDisplay (app (world_of r)) = None /\
    statusBar (app (world_of r)) = "Error creating texture: " +:+ err /\
    imageSpinner (app (world_of r)) = false /\
    files (world_of r) = <[cache_path w := imageBytes]> (files w) in
  holds ((First.onGenerateImage env;; main_loop) w) /\
  holds ((Second.onGenerateImage env;; main_loop) w).
Proof.
  intros holds.
  assert (Hmodel : forall model, holds ((onGenerateImage_for model env;; main_loop) w)).
  { intros model.
    assert (H : wp (onGenerateImage_for model env;; main_loop)
              (fun _ w' evs =>
                 imageDisplay (app w') = None /\
                 statusBar (app w') = "Error creating texture: " +:+ err /\
                 imageSpinner (app w') = false /\
                 files w' = <[cache_path w := imageBytes]> (files w)) w).
    { apply generation_run; [assumption..|].
      intros s. unfold imageResult. wp_steps. rewrite Hgen, Hdec. wp_steps.
      unfold cache_path. simpl.
      destruct (userConfigDir w) as [dir|]; wp_steps; rewrite Hwrite; wp_steps;
        rewrite Htex; wp_steps; simpl; repeat split; assumption. }
    destruct (wp_elim _ _ _ H) as (a & Hres & Hrest).
    split; [exact (result_unit _ _ Hres) | exact Hrest]. }
  split; apply Hmodel.
Qed.

Lemma texture_failure_witness :
  imagePrompt (app example_world) <> "" /\
  idle example_world = [] /\
  statusBar (app (world_of ((Second.onGenerateImage image_texture_fails;; main_loop)
                              example_world))) =
    "Error creating texture: Unknown image format".
Proof.
  refine ((fun (Hprompt : imagePrompt (app example_world) <> "") =>
            conj Hprompt (conj eq_refl _)) _).
  - exact (proj1 (proj2 (proj2 (proj2
      (texture_failure_leaves_new_cache_and_no_picture image_texture_fails
         example_world "AAAA" [] [Byte.x00; Byte.x00; Byte.x00]
         "Unknown image format"
         Hprompt eq_refl eq_refl eq_refl eq_refl eq_refl))))).
  - discriminate.
Defined.

(** When the service answers without error and without any image, the
    closure indexes an empty [result.Data] and the process panics: the run has
    no result, the spinner has been stopped, and neither the status nor the
    files have been touched. *)
Theorem empty_answer_panics
    (env : ImageEnv) (w : World)
    (Hprompt : imagePrompt (app w) <> "")
    (Hidle : idle w = [])
    (Hgen : generate_result env = GenerateOk []) :
  let holds (r : option unit * World * list Event) :=
    result_of r = None /\
    imageSpinner (app (world_of r)) = false /\
    imageDisplay (app (world_of r)) = None /\
    statusBar (app (world_of r)) = statusBar (app w) /\
    files (world_of r) = files w in
  holds ((First.onGenerateImage env;; main_loop) w) /\
  holds ((Second.onGenerateImage env;; main_loop) w).
Proof.
  intros holds.
  assert (Hmodel : forall model, holds ((onGenerateImage_for model env;; main_loop) w)).
  { intros model.
    destruct (generation_run_eq model env w Hprompt Hidle) as [s Hs].
    unfold holds. rewrite Hs. unfold imageResult.
    rewrite (bind_run _ _ (generating s w) tt
               (with_app (apply_ui SpinnerStop) (generating s w))
               [ {| thread := cur (generating s w); action := UiAct SpinnerStop |} ])
      by reflexivity.
    rewrite Hgen. repeat split. }
  split; apply Hmodel.
Qed.

Lemma empty_answer_witness :
  imagePrompt (app example_world) <> "" /\
  idle example_world = [] /\
  result_of ((First.onGenerateImage image_answer_empty;; main_loop) example_world) = None.
Proof.
  refine ((fun (Hprompt : imagePrompt (app example_world) <> "") =>
            conj Hprompt (conj eq_refl _)) _).
  - exact (proj1 (proj1
      (empty_answer_panics image_answer_empty example_world Hprompt eq_refl eq_refl))).
  - discriminate.
Defined.

(** ** Invariants of the main loop *)

Lemma wp_conj {A} (m : M A) (Q1 Q2 : A -> World -> list Event -> Prop) w :
  wp m Q1 w -> wp m Q2 w -> wp m (fun a w' e => Q1 a w' e /\ Q2 a w' e) w.
Proof.
  unfold wp. destruct (m w) as [[[a|] w1] e1]; [now split | intros []].
Qed.

Lemma run_idle_inv (I : World -> Prop) (HI : closure_step I) (n : nat) : forall w,
  I w ->
  wp (run_idle n)
     (fun _ w' _ => I w' /\ idle w' = drop n (idle w) /\
                    cur w' = cur w /\ sched w' = sched w) w.
Proof.
  induction n as [|n IH]; intros w Hw.
  - apply wp_ret. repeat split; assumption.
  - simpl. wp_steps. destruct (idle w) as [|cb rest] eqn:Hq.
    + wp_steps. repeat split; assumption.
    + wp_steps.
      eapply wp_mono; [apply (HI w cb rest Hw Hq)|].
      intros [] w1 e1 (Hw1 & Hq1 & Hc1 & Hs1).
      eapply wp_mono; [apply (IH w1 Hw1)|].
      intros [] w2 e2 (Hw2 & Hq2 & Hc2 & Hs2). simpl in *.
      repeat split; try congruence.
Qed.

Lemma main_loop_inv (I : World -> Prop) (HI : closure_step I) (w : World) :
  I w ->
  wp main_loop (fun _ w' _ => I w' /\ idle w' = [] /\ cur w' = cur w) w.
Proof.
  intros Hw. unfold main_loop. wp_steps.
  eapply wp_mono; [apply (run_idle_inv I HI _ w Hw)|].
  intros [] w' e' (Hw' & Hq' & Hc' & _). simpl.
  repeat split; try assumption. rewrite Hq'. apply drop_all.
Qed.

Lemma preempt_inv (I : World -> Prop) (HI : closure_step I) (Hobs : observable I)
    (w : World) :
  I w -> wp preempt (fun _ w' _ => I w' /\ cur w' = cur w) w.
Proof.
  intros Hw. unfold preempt. wp_steps.
  destruct (sched w) as [|n rest] eqn:Hs.
  - wp_steps. now split.
  - wp_steps.
    eapply wp_mono.
    + apply (run_idle_inv I HI n). eapply Hobs; [..|exact Hw]; reflexivity.
    + intros [] w1 e1 (Hw1 & _ & _ & _). wp_steps. simpl. split; [|reflexivity].
      eapply Hobs; [..|exact Hw1]; reflexivity.
Qed.

Lemma wp_bg_inv {A} (I : World -> Prop) (HI : closure_step I) (Hobs : observable I)
    (m : M A) Q w :
  I w ->
  (forall w1 e1, I w1 -> cur w1 = cur w ->
     wp m (fun a w2 e2 => Q a w2 (e1 ++ e2)) w1) ->
  wp (bg m) Q w.
Proof.
  intros Hw H. unfold bg. wp_step.
  eapply wp_mono; [apply (preempt_inv I HI Hobs w Hw)|].
  intros [] w1 e1 [Hw1 Hc1]. now apply H.
Qed.

(** *** Code that only works on files *)

Lemma keeps_ret {A} (a : A) : keeps (mret a).
Proof. intros w _. apply wp_ret. repeat split. Qed.

Lemma keeps_gets {A} (f : World -> A) : keeps (gets f).
Proof. intros w _. apply wp_gets. repeat split. Qed.

Lemma keeps_emit (a : Action) : keeps (emit a).
Proof. intros w _. apply wp_emit. repeat split. Qed.

Lemma keeps_fs_do (op : FsOp) : keeps (fs_do op).
Proof. intros w _. apply wp_fs_do. repeat split. Qed.

Lemma keeps_bind {A B} (m : M A) (f : A -> M B) :
  keeps m -> (forall a, keeps (f a)) -> keeps (m ≫= f).
Proof.
  intros Hm Hf w Hq. wp_step.
  eapply wp_mono; [apply (Hm w Hq)|].
  intros a w1 e1 (Ha & Hv & Hi & Hc & Hu & Ht).
  eapply wp_mono; [apply (Hf a w1); congruence|].
  intros b w2 e2 (Ha2 & Hv2 & Hi2 & Hc2 & Hu2 & Ht2).
  repeat split; congruence.
Qed.

Lemma keeps_bg {A} (m : M A) : keeps m -> keeps (bg m).
Proof.
  intros Hm w Hq. apply wp_bg_nothing; [exact Hq|]. intros s.
  eapply wp_mono; [apply (Hm (with_sched s w) Hq)|].
  intros a w1 e1 H. exact H.
Qed.

Ltac keeps_walk :=
  repeat
    lazymatch goal with
    | |- keeps (_ ≫= _) => apply keeps_bind; [|intros ?]
    | |- keeps (mret _) => apply keeps_ret
    | |- keeps (ret _) => apply keeps_ret
    | |- keeps (gets _) => apply keeps_gets
    | |- keeps (emit _) => apply keeps_emit
    | |- keeps (fs_do _) => apply keeps_fs_do
    | |- keeps (bg _) => apply keeps_bg
    | |- keeps (match ?x with _ => _ end) => destruct x
    end.

Lemma keeps_ioCopy tmpPath bufs : forall fail, keeps (ioCopy tmpPath bufs fail).
Proof.
  induction bufs as [|buf rest IH]; intros fail;
    destruct fail as [[[|n] err]|]; simpl; keeps_walk; apply IH.
Qed.

Lemma keeps_copyImageFile env src dest : keeps (copyImageFile env src dest).
Proof. unfold copyImageFile. keeps_walk; apply keeps_ioCopy. Qed.

Lemma keeps_configDir : keeps configDir.
Proof. unfold configDir. keeps_walk. Qed.

(** ** Saving the image: the whole handler *)

Lemma awaiting_step cb message shown fs :
  status_of cb = Some message -> closure_step (awaiting cb message shown fs).
Proof.
  intros Hst w c rest [Hf [[Hq Ha]|[Hq Ha]]] Hidle; rewrite Hq in Hidle;
    [|discriminate].
  injection Hidle as <- <-.
  assert (Hrun : run_callback cb = setStatus message).
  { destruct cb as [? ?|?|?| |?| |[?|] ?]; try discriminate;
      simpl in Hst; injection Hst as <-; reflexivity. }
  rewrite Hrun. wp_steps.
  split; [|repeat split].
  split; [exact Hf|]. right. split; [reflexivity|].
  change (apply_ui (StatusSetText message) (app w) =
          apply_ui (StatusSetText message) shown).
  now rewrite Ha.
Qed.

Lemma awaiting_observable cb message shown fs :
  observable (awaiting cb message shown fs).
Proof.
  intros w w' Ha Hf Hv Hi Hu Ht [H1 H2]. unfold awaiting.
  rewrite Ha, Hf, Hi. now split.
Qed.

Lemma apply_ui_destroy_status message (s : App) :
  apply_ui DialogDestroy (apply_ui (StatusSetText message) s) =
  apply_ui (StatusSetText message) (apply_ui DialogDestroy s).
Proof. reflexivity. Qed.

(** The run of [onSaveImage] and the main loop when the chooser was
    accepted with a file, in terms of what the copy does. *)
Lemma save_accepted_run (env : SaveEnv) (w : World) (path : string)
    (C : option string -> World -> Prop) :
  idle w = [] ->
  response env = ResponseAccept ->
  chosen_file env = Some path ->
  (forall wc, files wc = files w -> idle wc = [] ->
     wp (copyImageFile (copy env) (cache_path w) (save_destination path))
        (fun res w' _ => C res w') wc) ->
  wp (onSaveImage env;; main_loop) (fun _ w' _ => saved env w path C w') w.
Proof.
  intros Hidle Hresp Hfile Hcopy. unfold onSaveImage.
  wp_step. wp_step.
  assert (Hshow : forall (Q : unit -> World -> list Event -> Prop),
            (forall e, Q tt w e) ->
            wp match home_dir env with
               | Some homeDir =>
                   if pictures_found env
                   then ui (DialogSetCurrentFolder (filepath_Join homeDir "Pictures"))
                   else ret tt
               | None => ret tt
               end Q w).
  { intros Q HQ. destruct (home_dir env); [destruct (pictures_found env)|];
      wp_steps; try apply HQ.
    replace (with_app _ w) with w by (destruct w; reflexivity). apply HQ. }
  apply Hshow. intros e0. wp_steps.
  apply wp_bg_nothing; [exact Hidle|]. intros s1. wp_steps.
  destruct (decide (response env = ResponseAccept)) as [_|]; [|contradiction].
  wp_steps. apply wp_bg_nothing; [exact Hidle|]. intros s2. wp_steps.
  rewrite Hfile. cbv zeta. wp_steps.
  apply wp_bg_nothing; [exact Hidle|]. intros s3.
  fold (save_destination path).
  assert (Hcache : forall w1,
            idle w1 = [] -> files w1 = files w ->
            app w1 = apply_ui DialogShow (app w) ->
            wp (go_
                  (copyImageFile (copy env) (cache_path w) (save_destination path)
                   ≫= λ err : option string,
                        bg (idleAdd (SaveResult err (save_destination path))))
                ≫= λ _ : (), bg (ui DialogDestroy))
               (λ (_ : ()) (w2 : World) (_ : list Event),
                  wp main_loop
                    (λ (_ : ()) (w0 : World) (_ : list Event),
                       saved env w path C w0)
                    (with_cur (cur (with_app (apply_ui DialogShow) w)) w2))
               w1).
  { intros w1 Hq1 Hf1 Ha1. wp_steps.
    eapply wp_mono.
    { apply wp_conj; [apply (Hcopy (with_cur Goroutine w1)); assumption|].
      apply (keeps_copyImageFile _ _ _ (with_cur Goroutine w1)). exact Hq1. }
    intros res wcopy ec [HC (Hka & Hkv & Hki & Hkc & Hku & Hkt)]. simpl in *.
    apply wp_bg_nothing; [congruence|]. intros s4. wp_steps.
    set (cb := SaveResult res (save_destination path)).
    set (msg := save_status res (save_destination path)).
    assert (Hst : status_of cb = Some msg) by (destruct res; reflexivity).
    apply (wp_bg_inv (awaiting cb msg (apply_ui DialogShow (app w)) (files wcopy))
             (awaiting_step _ _ _ _ Hst) (awaiting_observable _ _ _ _)).
    { split; [reflexivity|]. left. simpl. rewrite Hki, Hq1, Hka.
      split; [reflexivity | exact Ha1]. }
    intros w2 e2 [Hf2 Hw2] _. wp_steps.
    eapply wp_mono.
    { apply (main_loop_inv
               (awaiting cb msg (apply_ui DialogDestroy (apply_ui DialogShow (app w)))
                  (files wcopy))
               (awaiting_step _ _ _ _ Hst)).
      split; [exact Hf2|]. simpl.
      destruct Hw2 as [[Hq2 Ha2]|[Hq2 Ha2]]; [left|right];
        (split; [exact Hq2|]); now rewrite Ha2. }
    intros [] w3 e3 ([Hf3 Hw3] & Hq3 & _).
    exists res, wcopy. split; [exact HC|]. split; [exact Hf3|].
    destruct Hw3 as [[Hq Ha]|[Hq Ha]]; [congruence|]. now split. }
  unfold cache_path in *.
  apply wp_configDir. simpl.
  destruct (userConfigDir w) as [dir|]; apply Hcache;
    first [exact Hidle | reflexivity].
Qed.

Lemma saved_elim (env : SaveEnv) (w : World) (path : string)
    (C : option string -> World -> Prop) :
  wp (onSaveImage env;; main_loop) (fun _ w' _ => saved env w path C w') w ->
  let r := (onSaveImage env;; main_loop) w in
  result_of r = Some tt /\ saved env w path C (world_of r).
Proof.
  intros H. destruct (wp_elim _ _ _ H) as (a & Hres & Hs).
  split; [exact (result_unit _ _ Hres) | exact Hs].
Qed.

(** The status after a save tells what happened.  When the chooser is
    accepted with a file, the handler copies the cache file to the chosen
    path (with ".png" added if it is missing), destroys the chooser, and the
    status ends up reading either "Image saved to: " and that path, in which
    case the path holds the contents of the cache file, or "Error saving
    image: " and the error, in which case the path holds what it held before.
    The conversation, the store and the picture are untouched. *)
Theorem save_status_tells_what_happened (env : SaveEnv) (w : World) (path : string)
    (Hidle : idle w = [])
    (Hresp : response env = ResponseAccept)
    (Hfile : chosen_file env = Some path)
    (Hsibling : forall tmpPath,
        temp_path (copy env) (save_destination path) = Some tmpPath ->
        files w !! save_destination path = None ->
        tmpPath <> save_destination path) :
  let dest := save_destination path in
  let r := (onSaveImage env;; main_loop) w in
  result_of r = Some tt /\
  saveDialog (app (world_of r)) = false /\
  idle (world_of r) = [] /\
  chatHistory (app (world_of r)) = chatHistory (app w) /\
  db (app (world_of r)) = db (app w) /\
  imageDisplay (app (world_of r)) = imageDisplay (app w) /\
  ((statusBar (app (world_of r)) = "Image saved to: " +:+ dest /\
    is_Some (files w !! cache_path w) /\
    files (world_of r) !! dest = files w !! cache_path w) \/
   (exists err,
      statusBar (app (world_of r)) = "Error saving image: " +:+ err /\
      files (world_of r) !! dest = files w !! dest)).
Proof.
  intros dest r.
  set (C := fun (res : option string) (w' : World) =>
              (forall err, res = Some err -> files w' !! dest = files w !! dest) /\
              (res = None ->
                 is_Some (files w !! cache_path w) /\
                 files w' !! dest = files w !! cache_path w)).
  destruct (saved_elim env w path C) as [Hres (res & wcopy & [Hfail Hok] & Hf & Ha & Hq)].
  { apply save_accepted_run; try assumption.
    intros wc Hfc Hqc.
    eapply wp_mono.
    - apply (copyImageFile_done (copy env) (cache_path w) dest wc Hqc).
      rewrite Hfc. exact Hsibling.
    - intros res w' evs [_ _ _ Hfl Hsc]. rewrite Hfc in *. split.
      + exact Hfl.
      + intros Hn. destruct (Hsc Hn) as (H1 & H2 & _). now split. }
  fold r in Hres, Hf, Ha, Hq.
  split; [exact Hres|]. rewrite Ha, Hf.
  do 5 (split; [first [reflexivity | exact Hq]|]).
  destruct res as [err|].
  - right. exists err. split; [reflexivity|]. now apply (Hfail err).
  - left. destruct (Hok eq_refl) as [H1 H2]. repeat split; assumption.
Qed.

Lemma save_status_witness :
  idle world_with_cache = [] /\
  response save_accepted = ResponseAccept /\
  chosen_file save_accepted = Some "/home/user/Pictures/cat" /\
  saveDialog (app (world_of ((onSaveImage save_accepted;; main_loop) world_with_cache)))
    = false.
Proof.
  split; [reflexivity|]. split; [reflexivity|]. split; [reflexivity|].
  refine (proj1 (proj2
    (save_status_tells_what_happened save_accepted world_with_cache
       "/home/user/Pictures/cat" eq_refl eq_refl eq_refl _))).
  intros tmpPath _ H. vm_compute in H. discriminate H.
Defined.

Lemma string_length_app (a b : string) :
  String.length (a +:+ b) = (String.length a + String.length b)%nat.
Proof. induction a as [|c a IH]; simpl; [reflexivity | now rewrite IH]. Qed.

Lemma substring_skip (a b : string) (n : nat) :
  String.substring (String.length a) n (a +:+ b) = String.substring 0 n b.
Proof. induction a as [|c a IH]; simpl; [reflexivity | exact IH]. Qed.

Lemma substring_whole (b : string) : String.substring 0 (String.length b) b = b.
Proof. induction b as [|c b IH]; simpl; [reflexivity | now rewrite IH]. Qed.

Lemma strings_HasSuffix_app (a b : string) : strings_HasSuffix (a +:+ b) b = true.
Proof.
  unfold strings_HasSuffix. rewrite string_length_app.
  replace (String.length a + String.length b - String.length b)%nat
    with (String.length a) by lia.
  rewrite substring_skip, substring_whole, String.eqb_refl, andb_true_r.
  apply Nat.leb_le. lia.
Qed.

Lemma strings_ToLower_app (a b : string) :
  strings_ToLower (a +:+ b) = strings_ToLower a +:+ strings_ToLower b.
Proof. induction a as [|c a IH]; simpl; [reflexivity | now rewrite IH]. Qed.

(** The path an image is saved to always ends in ".png", in upper or lower
    case: a chosen path that does is kept as it is, any other gets ".png"
    added; doing it twice changes nothing more. *)
Theorem save_destination_ends_in_png (path : string) :
  strings_HasSuffix (strings_ToLower (save_destination path)) ".png" = true /\
  (strings_HasSuffix (strings_ToLower path) ".png" = true ->
     save_destination path = path) /\
  (strings_HasSuffix (strings_ToLower path) ".png" = false ->
     save_destination path = path +:+ ".png") /\
  save_destination (save_destination path) = save_destination path.
Proof.
  assert (H : strings_HasSuffix (strings_ToLower (save_destination path)) ".png" = true).
  { unfold save_destination.
    destruct (strings_HasSuffix (strings_ToLower path) ".png") eqn:E; [exact E|].
    rewrite strings_ToLower_app. apply strings_HasSuffix_app. }
  split; [exact H|]. split; [|split].
  - intros E. unfold save_destination. now rewrite E.
  - intros E. unfold save_destination. now rewrite E.
  - unfold save_destination at 1. now rewrite H.
Qed.

Lemma copy_without_source (env : CopyEnv) (src dest : string) (w : World) :
  idle w = [] -> mkdir_err env = None -> open_err env = None ->
  files w !! src = None ->
  wp (copyImageFile env src dest)
     (fun res w' _ =>
        res = Some ("failed to open source file: open " +:+ src +:+
                    ": no such file or directory") /\
        files w' = files w) w.
Proof.
  intros Hidle Hmk Hop Hsrc. unfold copyImageFile.
  wp_steps. apply wp_bg_nothing; [exact Hidle|]. intros s1. wp_steps.
  rewrite Hmk. wp_steps. apply wp_bg_nothing; [exact Hidle|]. intros s2. wp_steps.
  simpl. rewrite Hop, Hsrc. cbv zeta. wp_steps. simpl. now split.
Qed.

(** Save before any image was generated (or after the cache file was
    removed): when the directories can be made, the copy fails at opening the
    cache file, the status reads "Error saving image: failed to open source
    file: open <cache>: no such file or directory", and no file is created or
    changed. *)
Theorem save_without_cache_reports_missing_source
    (env : SaveEnv) (w : World) (path : string)
    (Hidle : idle w = [])
    (Hresp : response env = ResponseAccept)
    (Hfile : chosen_file env = Some path)
    (Hmk : mkdir_err (copy env) = None)
    (Hop : open_err (copy env) = None)
    (Hcache : files w !! cache_path w = None) :
  let r := (onSaveImage env;; main_loop) w in
  result_of r = Some tt /\
  statusBar (app (world_of r)) =
    "Error saving image: failed to open source file: open " +:+ cache_path w +:+
    ": no such file or directory" /\
  files (world_of r) = files w /\
  saveDialog (app (world_of r)) = false.
Proof.
  intros r.
  set (C := fun (res : option string) (w' : World) =>
              res = Some ("failed to open source file: open " +:+ cache_path w +:+
                          ": no such file or directory") /\
              files w' = files w).
  destruct (saved_elim env w path C) as [Hres (res & wcopy & [Hr Hfc] & Hf & Ha & Hq)].
  { apply save_accepted_run; try assumption.
    intros wc Hfc Hqc.
    eapply wp_mono.
    - apply (copy_without_source (copy env) (cache_path w) (save_destination path) wc);
        try assumption. now rewrite Hfc.
    - intros res w' evs [H1 H2]. split; [exact H1 | congruence]. }
  fold r in Hres, Hf, Ha, Hq.
  split; [exact Hres|]. rewrite Ha, Hf, Hr. repeat split. exact Hfc.
Qed.

Lemma save_without_cache_witness :
  idle example_world = [] /\
  files example_world !! cache_path example_world = None /\
  statusBar (app (world_of ((onSaveImage save_accepted;; main_loop) example_world))) =
    "Error saving image: failed to open source file: open /home/user/.config/openai-gtk/temp.png: no such file or directory".
Proof.
  split; [reflexivity|]. split; [reflexivity|].
  exact (proj1 (proj2
    (save_without_cache_reports_missing_source save_accepted example_world
       "/home/user/Pictures/cat" eq_refl eq_refl eq_refl eq_refl eq_refl eq_refl))).
Defined.

(** When the chooser is dismissed, the handler destroys it and does nothing
    else: no file-system call, no status.  When it is accepted without a
    file, the status reads "Error: No file selected", no file-system call is
    made, and the chooser is not destroyed: the handler returns before it
    gets there. *)
Theorem save_dismissed_or_without_file (env : SaveEnv) (w : World)
    (Hidle : idle w = []) :
  let r := (onSaveImage env;; main_loop) w in
  (response env <> ResponseAccept ->
     result_of r = Some tt /\
     app (world_of r) = apply_ui DialogDestroy (apply_ui DialogShow (app w)) /\
     saveDialog (app (world_of r)) = false /\
     statusBar (app (world_of r)) = statusBar (app w) /\
     files (world_of r) = files w /\
     fs_ops (events_of r) = [] /\
     idle_adds (events_of r) = []) /\
  (response env = ResponseAccept -> chosen_file env = None ->
     result_of r = Some tt /\
     app (world_of r) =
       apply_ui (StatusSetText "Error: No file selected") (apply_ui DialogShow (app w)) /\
     saveDialog (app (world_of r)) = true /\
     statusBar (app (world_of r)) = "Error: No file selected" /\
     files (world_of r) = files w /\
     fs_ops (events_of r) = []).
Proof.
  intros r.
  assert (Hshow : forall (Q : unit -> World -> list Event -> Prop),
            (forall e, fs_ops e = [] -> idle_adds e = [] -> Q tt w e) ->
            wp match home_dir env with
               | Some homeDir =>
                   if pictures_found env
                   then ui (DialogSetCurrentFolder (filepath_Join homeDir "Pictures"))
                   else ret tt
               | None => ret tt
               end Q w).
  { intros Q HQ. destruct (home_dir env); [destruct (pictures_found env)|];
      wp_steps; try (apply HQ; reflexivity).
    replace (with_app _ w) with w by (destruct w; reflexivity).
    apply HQ; reflexivity. }
  split.
  - intros Hresp.
    assert (H : wp (onSaveImage env;; main_loop)
              (fun _ w' evs =>
                 app w' = apply_ui DialogDestroy (apply_ui DialogShow (app w)) /\
                 files w' = files w /\ fs_ops evs = [] /\ idle_adds evs = []) w).
    { unfold onSaveImage. wp_step. wp_step. apply Hshow. intros e0 He0 Ha0. wp_steps.
      apply wp_bg_nothing; [exact Hidle|]. intros s1. wp_steps.
      destruct (decide (response env = ResponseAccept)); [contradiction|].
      apply wp_bg_nothing; [exact Hidle|]. intros s2. wp_steps.
      unfold main_loop. wp_steps. simpl. rewrite Hidle. simpl. wp_steps.
      unfold fs_ops, idle_adds in *. rewrite !omap_app, He0, Ha0.
      repeat split. }
    destruct (wp_elim _ _ _ H) as (a & Hres & Happ & Hf & Hfs & Hia).
    fold r in Hres, Happ, Hf, Hfs, Hia.
    split; [exact (result_unit _ _ Hres)|]. rewrite Happ.
    repeat split; assumption.
  - intros Hresp Hfile.
    assert (H : wp (onSaveImage env;; main_loop)
              (fun _ w' evs =>
                 app w' = apply_ui (StatusSetText "Error: No file selected")
                            (apply_ui DialogShow (app w)) /\
                 files w' = files w /\ fs_ops evs = []) w).
    { unfold onSaveImage. wp_step. wp_step. apply Hshow. intros e0 He0 Ha0. wp_steps.
      apply wp_bg_nothing; [exact Hidle|]. intros s1. wp_steps.
      destruct (decide (response env = ResponseAccept)); [|contradiction].
      wp_steps. apply wp_bg_nothing; [exact Hidle|]. intros s2. wp_steps.
      rewrite Hfile.
      apply wp_bg_nothing; [exact Hidle|]. intros s3. wp_steps.
      unfold main_loop. wp_steps. simpl. rewrite Hidle. simpl. wp_steps.
      simpl. rewrite Hidle. simpl. wp_steps.
      unfold fs_ops in *. rewrite !omap_app, He0.
      repeat split. }
    destruct (wp_elim _ _ _ H) as (a & Hres & Happ & Hf & Hfs).
    fold r in Hres, Happ, Hf, Hfs.
    split; [exact (result_unit _ _ Hres)|]. rewrite Happ.
    repeat split; assumption.
Qed.

Lemma save_dismissed_witness :
  idle example_world = [] /\
  saveDialog (app (world_of ((onSaveImage save_without_file;; main_loop) example_world)))
    = true.
Proof.
  split; [reflexivity|].
  exact (proj1 (proj2 (proj2
    (proj2 (save_dismissed_or_without_file save_without_file example_world eq_refl)
       eq_refl eq_refl)))).
Defined.

(** ** The copy: what it changes and when it succeeds *)

Lemma ioCopy_without_failure tmpPath bufs : forall w,
  idle w = [] ->
  wp (ioCopy tmpPath bufs None) (fun res _ _ => res = None) w.
Proof.
  induction bufs as [|buf rest IH]; intros w Hidle; simpl.
  - wp_steps. reflexivity.
  - wp_steps. apply wp_bg_nothing; [exact Hidle|]. intros s. wp_steps.
    eapply wp_mono; [apply IH; exact Hidle|]. intros res w' e H. exact H.
Qed.

(** No path but the destination is different after the call: the temporary
    file is gone, the source is as it was. *)
Lemma copyImageFile_spares_others (env : CopyEnv) (src dest : string) (w : World) :
  idle w = [] ->
  (forall tmpPath, temp_path env dest = Some tmpPath ->
     files w !! dest = None -> tmpPath <> dest) ->
  wp (copyImageFile env src dest)
     (fun _ w' _ => forall p, p <> dest -> files w' !! p = files w !! p) w.
Proof.
  intros Hidle Hfresh. unfold copyImageFile.
  wp_steps. apply wp_bg_nothing; [exact Hidle|]. intros s1. wp_steps.
  destruct (mkdir_err env) as [err|]; [wp_steps; reflexivity|].
  wp_steps. apply wp_bg_nothing; [exact Hidle|]. intros s2. wp_steps.
  simpl. cbv zeta.
  destruct (open_err env) as [err|]; [|destruct (files w !! src) as [data|] eqn:Hsrc].
  1, 3: (wp_steps; reflexivity).
  wp_steps. apply wp_bg_nothing; [exact Hidle|]. intros s3. wp_steps.
  simpl. cbv zeta. unfold temp_path in *.
  destruct (temp_rand env) as [err|rand] eqn:Hrand; [wp_steps; reflexivity|].
  set (tmpPath := filepath_Join (filepath_Dir dest) (rand +:+ ".png")) in *.
  destruct (files w !! tmpPath) as [old|] eqn:Htmp; [wp_steps; reflexivity|].
  assert (Hne : tmpPath <> dest).
  { intros E. refine (Hfresh tmpPath eq_refl _ E). now rewrite <- E. }
  wp_steps.
  eapply wp_mono.
  { apply (ioCopy_copies tmpPath _ (copy_fail env) []); [exact Hidle|].
    simpl. apply lookup_insert_eq. }
  intros copied w3 e3 [Hi3 _ _ Hot3 [written Hpa3] _]. simpl in *.
  assert (Hframe : forall p, p <> dest -> delete tmpPath (files w3) !! p = files w !! p).
  { intros p Hp. destruct (decide (p = tmpPath)) as [->|Hpt].
    - now rewrite lookup_delete_eq.
    - rewrite lookup_delete_ne by congruence.
      rewrite (Hot3 p Hpt). now rewrite lookup_insert_ne. }
  destruct copied as [err|].
  - wp_steps. apply wp_bg_nothing; [exact Hi3|]. intros s4. wp_steps.
    simpl. exact Hframe.
  - wp_steps. apply wp_bg_nothing; [exact Hi3|]. intros s4. wp_steps.
    destruct (rename_err env) as [err|];
      wp_steps; (apply wp_bg_nothing; [exact Hi3|]); intros s5; wp_steps; simpl.
    + exact Hframe.
    + rewrite Hpa3. intros p Hp. destruct (decide (p = tmpPath)) as [->|Hpt].
      * rewrite lookup_delete_eq. now rewrite Htmp.
      * rewrite lookup_delete_ne by congruence.
        rewrite lookup_insert_ne by congruence. now apply Hframe.
Qed.



(** ** What the chat shows when an exchange is over *)

Lemma insert_at_end {A} (l : list A) (x y : A) :
  <[length l := y]> (l ++ [x]) = l ++ [y].
Proof. induction l as [|a l IH]; [reflexivity|]. simpl. now rewrite IH. Qed.

Lemma updating_same_display before v r b w w' :
  vars w' = vars w -> idle w' = idle w ->
  chatHistory (app w') = chatHistory (app w) ->
  updating before v r b w -> updating before v r b w'.
Proof.
  intros Hv Hq Hh (Hr & Hcl & shown & Hs & Hup).
  unfold updating. rewrite Hv, Hq, Hh. eauto.
Qed.

Lemma updating_observable before v r b : observable (updating before v r b).
Proof.
  intros w w' Ha _ Hv Hq _ _. apply updating_same_display; congruence.
Qed.

Lemma updating_step before v r b : closure_step (updating before v r b).
Proof.
  intros w cb rest (Hr & Hcl & shown & Hs & Hup) Hq.
  rewrite Hq in Hcl, Hup. apply Forall_cons in Hcl as [Hcb Hrest].
  destruct Hcb as [Hst | ->].
  - assert (Hkeep : forall msg,
      wp (setStatus msg)
         (fun _ w' _ => updating before v r b w' /\ idle w' = rest /\
                        cur w' = cur w /\ sched w' = sched w)
         (with_idle (fun _ => rest) w)).
    { intros msg. wp_steps. simpl. split; [|auto].
      split; [exact Hr|]. split; [exact Hrest|].
      exists shown. simpl. split; [exact Hs|].
      intros Hall. apply Hup. simpl. now rewrite Hst. }
    destruct cb; try discriminate Hst; simpl; apply Hkeep.
  - simpl. wp_steps. simpl. rewrite Hr. simpl. split; [|auto].
    split; [exact Hr|]. split; [exact Hrest|].
    exists ("assistant: " +:+ r). split; [|reflexivity].
    simpl. rewrite Hs. apply insert_at_end.
Qed.

Lemma updating_bg {A} before v r b (m : M A) Q w :
  updating before v r b w ->
  (forall w1, updating before v r b w1 -> cur w1 = cur w ->
     wp m (fun a w2 _ => Q a w2) w1) ->
  wp (bg m) (fun a w2 _ => Q a w2) w.
Proof.
  intros Hw H.
  apply (wp_bg_inv _ (updating_step before v r b) (updating_observable before v r b));
    [exact Hw|].
  intros w1 e1 Hw1 Hc. now apply H.
Qed.

Lemma updating_queued_status before v r w cb :
  sets_status cb = true ->
  updating before v r false w ->
  updating before v r false (with_idle (fun q => q ++ [cb]) w).
Proof.
  intros Hst (Hr & Hcl & shown & Hs & Hup).
  split; [exact Hr|]. split.
  - simpl. apply Forall_app. split; [exact Hcl|]. constructor; [now left | constructor].
  - exists shown. split; [exact Hs|]. simpl. rewrite forallb_app.
    intros Hall. apply andb_prop in Hall as [Hall _]. now apply Hup.
Qed.

Lemma First_stream_loop_display before v events : forall r w,
  updating before v r false w ->
  wp (First.stream_loop (length before) v events)
     (fun _ w' _ => updating before v (r +:+ deltas events) false w') w.
Proof.
  induction events as [|evt rest IH]; intros r w Hw; simpl.
  - apply (updating_bg before v r false); [exact Hw|]. intros w1 Hw1 _. wp_steps.
    unfold deltas. simpl. now rewrite append_nil_r.
  - wp_steps. apply (updating_bg before v r false); [exact Hw|]. intros w1 Hw1 _.
    wp_steps. rewrite deltas_cons. unfold delta_of.
    destruct (Choices evt) as [|delta more].
    + wp_steps. eapply wp_mono; [apply (IH r w1 Hw1)|].
      intros [] w' _ H. exact H.
    + wp_steps. apply (updating_bg before v r false); [exact Hw1|].
      intros w2 (Hr2 & Hcl2 & shown2 & Hs2 & Hup2) _. wp_steps.
      apply (updating_bg before v (r +:+ delta) true).
      { split; [|split; [exact Hcl2|]].
        - simpl. rewrite Hr2. simpl. eapply lookup_append_var, Hr2.
        - exists shown2. split; [exact Hs2|]. intros _ [=]. }
      intros w3 (Hr3 & Hcl3 & shown3 & Hs3 & Hup3) _. wp_steps.
      eapply wp_mono.
      * apply (IH (r +:+ delta)). split; [exact Hr3|]. split.
        -- simpl. apply Forall_app. split; [exact Hcl3|].
           constructor; [now right | constructor].
        -- exists shown3. split; [exact Hs3|]. simpl. rewrite forallb_app. simpl.
           rewrite andb_false_r. intros [=].
      * intros [] w' _ H. now rewrite <- append_assoc.
Qed.

Lemma First_onSendMessage_display env w now :
  idle w = [] -> chatInput (app w) <> "" -> user_exec env = ExecOk now ->
  wp (First.onSendMessage env)
     (fun _ w' _ =>
        updating (chatHistory (app w) ++ ["user: " +:+ chatInput (app w)])
                 (length (vars w)) (deltas (stream env)) false w') w.
Proof.
  intros Hidle Htext Huser. unfold First.onSendMessage.
  set (before := chatHistory (app w) ++ ["user: " +:+ chatInput (app w)]).
  wp_steps. destruct (decide (chatInput (app w) = "")) as [E|_]; [contradiction|].
  wp_steps. rewrite Huser. wp_steps.
  apply wp_bg_nothing; [exact Hidle|]. intros s1. wp_steps.
  apply wp_bg_nothing; [exact Hidle|]. intros s2. wp_steps.
  change (length (chatHistory (app (with_app _ w)))) with (length before).
  match goal with
  | |- wp _ _ ?w0 =>
      assert (H0 : updating before (length (vars w)) "" false w0)
  end.
  { split; [|split].
    - simpl. apply list_lookup_middle. reflexivity.
    - simpl. rewrite Hidle. constructor.
    - exists "assistant: ". split; [reflexivity|]. reflexivity. }
  eapply wp_mono; [apply (First_stream_loop_display before _ _ "" _ H0)|].
  intros [] w1 _ Hw1. change ("" +:+ deltas (stream env)) with (deltas (stream env)) in Hw1.
  set (r := deltas (stream env)) in *.
  wp_steps. apply (updating_bg before (length (vars w)) r false); [exact Hw1|]. intros w2 Hw2 _. wp_steps.
  assert (Hcur : forall t w', updating before (length (vars w)) r false w' ->
                              updating before (length (vars w)) r false (with_cur t w')).
  { intros t w'. now apply updating_same_display. }
  destruct (stream_err env) as [err|].
  - apply (updating_bg before (length (vars w)) r false); [exact Hw2|]. intros w3 Hw3 _. wp_steps.
    apply Hcur. now apply updating_queued_status.
  - wp_steps. apply (updating_bg before (length (vars w)) r false); [exact Hw2|]. intros w3 Hw3 _.
    destruct (assistant_exec env) as [now2|msg]; wp_steps.
    + apply Hcur. revert Hw3. now apply updating_same_display.
    + apply (updating_bg before (length (vars w)) r false); [exact Hw3|]. intros w4 Hw4 _. wp_steps.
      apply Hcur. now apply updating_queued_status.
Qed.

(** In the first version, when an exchange and the closures it queued have
    run, the chat shows two more labels than before: the message, and
    "assistant: " followed by the deltas of all chunks, whatever the main loop
    ran in between, and also when the stream or the insert of the reply
    failed. *)
Theorem streamed_reply_ends_up_on_one_label (env : SendEnv) (w : World) (now : Z)
    (Hidle : idle w = [])
    (Htext : chatInput (app w) <> "")
    (Huser : user_exec env = ExecOk now) :
  let r := (First.onSendMessage env ;; main_loop) w in
  result_of r = Some tt /\
  idle (world_of r) = [] /\
  chatHistory (app (world_of r)) =
    chatHistory (app w) ++ ["user: " +:+ chatInput (app w);
                            "assistant: " +:+ deltas (stream env)].
Proof.
  intros r.
  assert (H : wp (First.onSendMessage env ;; main_loop)
                 (fun _ w' _ =>
                    idle w' = [] /\
                    chatHistory (app w') =
                      chatHistory (app w) ++ ["user: " +:+ chatInput (app w);
                                              "assistant: " +:+ deltas (stream env)]) w).
  { wp_step.
    eapply wp_mono; [apply (First_onSendMessage_display env w now Hidle Htext Huser)|].
    intros [] w1 _ Hw1.
    eapply wp_mono; [apply (main_loop_inv _ (updating_step _ _ _ _) w1 Hw1)|].
    intros [] w2 _ ((_ & _ & shown & Hs & Hup) & Hq & _). split; [exact Hq|].
    rewrite Hs, Hup; [|now rewrite Hq|reflexivity].
    now rewrite <- app_assoc. }
  destruct (wp_elim _ _ _ H) as ([] & Hres & Hq & Hh). fold r in Hres, Hq, Hh.
  auto.
Qed.

Lemma streamed_reply_witness :
  chatHistory (app (world_of ((First.onSendMessage stream_breaks ;; main_loop)
                                example_world)))
    = ["user: Hello"; "assistant: Hi"].
Proof.
  exact (proj2 (proj2
    (streamed_reply_ends_up_on_one_label stream_breaks example_world 1700000000
       eq_refl ltac:(discriminate) eq_refl))).
Defined.

Lemma deltas_app (a b : list ChatCompletionChunk) :
  deltas (a ++ b) = deltas a +:+ deltas b.
Proof.
  induction a as [|evt a IH]; [reflexivity|].
  change ((evt :: a) ++ b) with (evt :: (a ++ b)).
  now rewrite !deltas_cons, IH, append_assoc.
Qed.

Lemma reply_so_far_prefix (done rest : list ChatCompletionChunk) :
  reply_so_far (done ++ rest) (deltas done).
Proof. exists (length done). now rewrite take_app_length. Qed.

Lemma adding_same_display before v events r n b w w' :
  vars w' = vars w -> idle w' = idle w ->
  chatHistory (app w') = chatHistory (app w) ->
  adding before v events r n b w -> adding before v events r n b w'.
Proof.
  intros Hv Hq Hh (Hr & Hseen & Hcl & labels & Hs & Hn & Hall & Hlast).
  unfold adding. rewrite Hv, Hq, Hh. eauto 10.
Qed.

Lemma adding_observable before v events r n b :
  observable (adding before v events r n b).
Proof.
  intros w w' Ha _ Hv Hq _ _. apply adding_same_display; congruence.
Qed.

Lemma adding_step before v events r n b :
  closure_step (adding before v events r n b).
Proof.
  intros w cb rest (Hr & Hseen & Hcl & labels & Hs & Hn & Hall & Hlast) Hq.
  rewrite Hq in Hcl, Hn, Hlast. apply Forall_cons in Hcl as [Hcb Hrest].
  destruct Hcb as [Hst | ->].
  - assert (Hkeep : forall msg,
      wp (setStatus msg)
         (fun _ w' _ => adding before v events r n b w' /\ idle w' = rest /\
                        cur w' = cur w /\ sched w' = sched w)
         (with_idle (fun _ => rest) w)).
    { intros msg. wp_steps. simpl. split; [|auto].
      split; [exact Hr|]. split; [exact Hseen|]. split; [exact Hrest|].
      exists labels. simpl. split; [exact Hs|].
      simpl in Hn, Hlast. rewrite Hst in Hn, Hlast. simpl in Hn, Hlast.
      split; [exact Hn|]. split; [exact Hall | exact Hlast]. }
    destruct cb; try discriminate Hst; simpl; apply Hkeep.
  - simpl. wp_steps. simpl. rewrite Hr. simpl. split; [|auto].
    split; [exact Hr|]. split; [exact Hseen|]. split; [exact Hrest|].
    exists (labels ++ ["assistant: " +:+ r]). simpl. split; [|split; [|split]].
    + rewrite Hs. now rewrite <- app_assoc.
    + simpl in Hn. rewrite length_app. simpl. lia.
    + apply Forall_app. split; [exact Hall|].
      constructor; [|constructor]. now exists r.
    + intros _ _ _. apply last_snoc.
Qed.

Lemma adding_bg {A} before v events r n b (m : M A) Q w :
  adding before v events r n b w ->
  (forall w1, adding before v events r n b w1 -> cur w1 = cur w ->
     wp m (fun a w2 _ => Q a w2) w1) ->
  wp (bg m) (fun a w2 _ => Q a w2) w.
Proof.
  intros Hw H.
  apply (wp_bg_inv _ (adding_step before v events r n b)
           (adding_observable before v events r n b)); [exact Hw|].
  intros w1 e1 Hw1 Hc. now apply H.
Qed.

Lemma adding_queued_status before v events r n w cb :
  sets_status cb = true ->
  adding before v events r n false w ->
  adding before v events r n false (with_idle (fun q => q ++ [cb]) w).
Proof.
  intros Hst (Hr & Hseen & Hcl & labels & Hs & Hn & Hall & Hlast).
  split; [exact Hr|]. split; [exact Hseen|]. split.
  - simpl. apply Forall_app. split; [exact Hcl|]. constructor; [now left | constructor].
  - exists labels. split; [exact Hs|]. simpl. split; [|split; [exact Hall|]].
    + rewrite List.filter_app, length_app. simpl. rewrite Hst. simpl. lia.
    + rewrite forallb_app. intros H. apply andb_prop in H as [H _]. now apply Hlast.
Qed.

Lemma Second_stream_loop_display before v all : forall events done w,
  all = done ++ events ->
  adding before v all (deltas done) (length (List.filter has_choice done)) false w ->
  wp (Second.stream_loop v events)
     (fun _ w' _ =>
        adding before v all (deltas all) (length (List.filter has_choice all)) false w') w.
Proof.
  induction events as [|evt rest IH]; intros done w Hall Hw; simpl.
  - rewrite app_nil_r in Hall. subst done.
    apply (adding_bg before v all (deltas all)
             (length (List.filter has_choice all)) false); [exact Hw|].
    intros w1 Hw1 _. wp_steps. exact Hw1.
  - set (n := length (List.filter has_choice done)) in *.
    assert (Hall' : all = (done ++ [evt]) ++ rest) by now rewrite <- app_assoc.
    assert (Hd : deltas (done ++ [evt]) = deltas done +:+ delta_of evt).
    { rewrite deltas_app. reflexivity. }
    assert (Hc : length (List.filter has_choice (done ++ [evt]))
                 = (n + (if has_choice evt then 1 else 0))%nat).
    { rewrite List.filter_app, length_app. simpl. now destruct (has_choice evt). }
    wp_steps. apply (adding_bg before v all (deltas done) n false); [exact Hw|].
    intros w1 Hw1 _. wp_steps.
    assert (Hh : has_choice evt = match Choices evt with [] => false | _ => true end)
      by reflexivity.
    rewrite Hh in Hc. clear Hh. unfold delta_of in Hd.
    destruct (Choices evt) as [|delta more].
    + wp_steps. eapply wp_mono; [apply (IH (done ++ [evt]) w1 Hall')|].
      * rewrite Hd, Hc, append_nil_r, Nat.add_0_r. exact Hw1.
      * intros [] w' _ H. exact H.
    + wp_steps. apply (adding_bg before v all (deltas done) n false); [exact Hw1|].
      intros w2 (Hr2 & Hseen2 & Hcl2 & labels2 & Hs2 & Hn2 & Hl2 & Hlast2) _. wp_steps.
      apply (adding_bg before v all (deltas done +:+ delta) n true).
      { split; [|split; [|split; [exact Hcl2|]]].
        - simpl. rewrite Hr2. simpl. eapply lookup_append_var, Hr2.
        - rewrite <- Hd, Hall'. apply reply_so_far_prefix.
        - exists labels2. split; [exact Hs2|]. split; [exact Hn2|].
          split; [exact Hl2|]. intros _ [=]. }
      intros w3 (Hr3 & Hseen3 & Hcl3 & labels3 & Hs3 & Hn3 & Hl3 & Hlast3) _. wp_steps.
      eapply wp_mono; [apply (IH (done ++ [evt]) _ Hall')|].
      * rewrite Hd, Hc. split; [exact Hr3|]. split; [exact Hseen3|]. split.
        -- simpl. apply Forall_app. split; [exact Hcl3|].
           constructor; [now right | constructor].
        -- exists labels3. split; [exact Hs3|]. simpl. split; [|split; [exact Hl3|]].
           ++ rewrite List.filter_app, length_app. simpl. lia.
           ++ rewrite forallb_app. simpl. rewrite andb_false_r. intros [=].
      * intros [] w' _ H. exact H.
Qed.

Lemma Second_onSendMessage_display env w now :
  idle w = [] -> chatInput (app w) <> "" -> user_exec env = ExecOk now ->
  wp (Second.onSendMessage env)
     (fun _ w' _ =>
        adding (chatHistory (app w) ++ ["user: " +:+ chatInput (app w)])
               (length (vars w)) (stream env) (deltas (stream env))
               (length (List.filter has_choice (stream env))) false w') w.
Proof.
  intros Hidle Htext Huser. unfold Second.onSendMessage.
  set (before := chatHistory (app w) ++ ["user: " +:+ chatInput (app w)]).
  set (n := length (List.filter has_choice (stream env))).
  wp_steps. destruct (decide (chatInput (app w) = "")) as [E|_]; [contradiction|].
  wp_steps. rewrite Huser. wp_steps.
  apply wp_bg_nothing; [exact Hidle|]. intros s1. wp_steps.
  apply wp_bg_nothing; [exact Hidle|]. intros s2. wp_steps.
  match goal with
  | |- wp _ _ ?w0 =>
      assert (H0 : adding before (length (vars w)) (stream env) (deltas [])
                     (length (List.filter has_choice [])) false w0)
  end.
  { split; [|split; [|split]].
    - simpl. apply list_lookup_middle. reflexivity.
    - apply (reply_so_far_prefix [] (stream env)).
    - simpl. rewrite Hidle. constructor.
    - exists []. split; [|split; [|split]].
      + simpl. now rewrite app_nil_r.
      + simpl. now rewrite Hidle.
      + constructor.
      + intros _ _ H. now elim H. }
  eapply wp_mono;
    [apply (Second_stream_loop_display before _ (stream env) _ [] _ eq_refl H0)|].
  intros [] w1 _ Hw1. set (r := deltas (stream env)) in *.
  wp_steps.
  apply (adding_bg before (length (vars w)) (stream env) r n false); [exact Hw1|].
  intros w2 Hw2 _. wp_steps.
  assert (Hcur : forall t w',
            adding before (length (vars w)) (stream env) r n false w' ->
            adding before (length (vars w)) (stream env) r n false (with_cur t w')).
  { intros t w'. now apply adding_same_display. }
  destruct (stream_err env) as [err|].
  - apply (adding_bg before (length (vars w)) (stream env) r n false); [exact Hw2|].
    intros w3 Hw3 _. wp_steps. apply Hcur. now apply adding_queued_status.
  - wp_steps.
    apply (adding_bg before (length (vars w)) (stream env) r n false); [exact Hw2|].
    intros w3 Hw3 _.
    destruct (assistant_exec env) as [now2|msg]; wp_steps.
    + apply Hcur. revert Hw3. now apply adding_same_display.
    + apply (adding_bg before (length (vars w)) (stream env) r n false); [exact Hw3|].
      intros w4 Hw4 _. wp_steps. apply Hcur. now apply adding_queued_status.
Qed.

(** In the second version every chunk with a choice adds a label of its
    own.  When an exchange and the closures it queued have run, the chat
    shows the labels it showed before, the message, and one label for each
    chunk with a choice; each of them reads "assistant: " followed by the
    reply as it stood after some chunk, and the last one holds the deltas of
    all chunks. *)
Theorem second_version_adds_a_label_for_each_chunk
    (env : SendEnv) (w : World) (now : Z)
    (Hidle : idle w = [])
    (Htext : chatInput (app w) <> "")
    (Huser : user_exec env = ExecOk now) :
  let r := (Second.onSendMessage env ;; main_loop) w in
  let shown := chatHistory (app (world_of r)) in
  let before := chatHistory (app w) ++ ["user: " +:+ chatInput (app w)] in
  result_of r = Some tt /\
  idle (world_of r) = [] /\
  take (length before) shown = before /\
  length (drop (length before) shown)
    = length (List.filter has_choice (stream env)) /\
  Forall (fun t => exists s, reply_so_far (stream env) s /\ t = "assistant: " +:+ s)
         (drop (length before) shown) /\
  (List.filter has_choice (stream env) <> [] ->
   last shown = Some ("assistant: " +:+ deltas (stream env))).
Proof.
  intros r shown before.
  assert (H : wp (Second.onSendMessage env ;; main_loop)
                 (fun _ w2 _ =>
                    adding before (length (vars w)) (stream env) (deltas (stream env))
                           (length (List.filter has_choice (stream env))) false w2 /\
                    idle w2 = []) w).
  { wp_step.
    eapply wp_mono; [apply (Second_onSendMessage_display env w now Hidle Htext Huser)|].
    intros [] w1 _ Hw1.
    eapply wp_mono; [apply (main_loop_inv _ (adding_step _ _ _ _ _ _) w1 Hw1)|].
    intros [] w2 _ (Hw2 & Hq & _). now split. }
  destruct (wp_elim _ _ _ H)
    as ([] & Hres & (_ & _ & _ & labels & Hs & Hn & Hall & Hlast) & Hq).
  fold r in Hres, Hs, Hn, Hall, Hlast, Hq. fold shown in Hs.
  rewrite Hq in Hn, Hlast. simpl in Hn, Hlast. rewrite Nat.add_0_r in Hn.
  split; [exact Hres|]. split; [exact Hq|]. rewrite Hs.
  rewrite take_app_length, drop_app_length.
  split; [reflexivity|]. split; [exact Hn|]. split; [exact Hall|].
  intros Hne.
  assert (Hl : last labels = Some ("assistant: " +:+ deltas (stream env))).
  { apply Hlast; [reflexivity | reflexivity|].
    intros E. apply Hne. now apply length_zero_iff_nil. }
  destruct labels as [|t labels _] using rev_ind; [discriminate Hl|].
  rewrite last_snoc in Hl. rewrite app_assoc, last_snoc. exact Hl.
Qed.

Lemma second_version_labels_witness :
  chatHistory (app (world_of ((Second.onSendMessage stream_completes ;; main_loop)
                                example_world)))
    = ["user: Hello"; "assistant: Hi"; "assistant: Hi there"] /\
  length (drop 1 (chatHistory (app (world_of
            ((Second.onSendMessage stream_completes ;; main_loop) example_world)))))
    = 2%nat.
Proof.
  split; [reflexivity|].
  exact (proj1 (proj2 (proj2 (proj2
    (second_version_adds_a_label_for_each_chunk stream_completes example_world
       1700000000 eq_refl ltac:(discriminate) eq_refl))))).
Defined.

(** ** From the answer of the image service to the saved file *)

Lemma copyImageFile_returns_no_error (env : CopyEnv) (src dest : string) (w : World)
    (data : list Byte.byte) (tmpPath : string) :
  idle w = [] ->
  mkdir_err env = None -> open_err env = None ->
  files w !! src = Some data ->
  temp_path env dest = Some tmpPath -> files w !! tmpPath = None ->
  copy_fail env = None -> rename_err env = None ->
  wp (copyImageFile env src dest) (fun res _ _ => res = None) w.
Proof.
  intros Hidle Hmk Hop Hsrc Htmp Hfree Hcp Hrn. unfold copyImageFile, temp_path in *.
  rewrite Hmk, Hop, Hcp, Hrn.
  wp_steps. apply wp_bg_nothing; [exact Hidle|]. intros s1. wp_steps.
  apply wp_bg_nothing; [exact Hidle|]. intros s2. wp_steps.
  simpl. rewrite Hsrc. cbv zeta. wp_steps.
  apply wp_bg_nothing; [exact Hidle|]. intros s3. wp_steps.
  simpl. destruct (temp_rand env) as [err|rand]; [discriminate Htmp|].
  injection Htmp as Htmp. rewrite Htmp, Hfree. cbv zeta. wp_steps.
  eapply wp_mono.
  { apply wp_conj.
    - apply (ioCopy_copies tmpPath _ None []); [exact Hidle|].
      simpl. apply lookup_insert_eq.
    - apply ioCopy_without_failure. exact Hidle. }
  intros copied w3 e3 [[Hi3 _ _ _ _ _] ->]. wp_steps.
  apply wp_bg_nothing; [exact Hi3|]. intros s4. wp_steps.
  apply wp_bg_nothing; [exact Hi3|]. intros s5. wp_steps. reflexivity.
Qed.

(** An image that was generated and then saved: when the request, the
    decoding, the cache file and the texture succeed, the chooser is accepted
    with a file and no step of the copy fails, the saved file holds exactly
    the decoded bytes of the answer, which are also the bytes of the picture
    on display; the cache file holds them too, and no other file has
    changed. *)
Theorem generated_image_is_saved_as_displayed
    (ienv : ImageEnv) (senv : SaveEnv) (w : World)
    (b : string) (rest : list string) (imageBytes : list Byte.byte)
    (path tmpPath : string)
    (Hprompt : imagePrompt (app w) <> "")
    (Hidle : idle w = [])
    (Hgen : generate_result ienv = GenerateOk (b :: rest))
    (Hdec : DecodeString ienv b = inr imageBytes)
    (Hwrite : write_result ienv = Written)
    (Htex : texture_err ienv = None)
    (Hresp : response senv = ResponseAccept)
    (Hfile : chosen_file senv = Some path)
    (Hmk : mkdir_err (copy senv) = None)
    (Hop : open_err (copy senv) = None)
    (Htmp : temp_path (copy senv) (save_destination path) = Some tmpPath)
    (Hfree : files w !! tmpPath = None)
    (Hcache : tmpPath <> cache_path w)
    (Hdest : tmpPath <> save_destination path)
    (Hcp : copy_fail (copy senv) = None)
    (Hrn : rename_err (copy senv) = None) :
  let r := ((First.onGenerateImage ienv;; main_loop);;
            (onSaveImage senv;; main_loop)) w in
  result_of r = Some tt /\
  files (world_of r) =
    <[save_destination path := imageBytes]> (<[cache_path w := imageBytes]> (files w)) /\
  imageDisplay (app (world_of r)) = Some {| texture_bytes := imageBytes |} /\
  statusBar (app (world_of r)) = "Image saved to: " +:+ save_destination path.
Proof.
  intros r.
  set (dest := save_destination path) in *.
  set (cached := <[cache_path w := imageBytes]> (files w)).
  assert (H : wp ((First.onGenerateImage ienv;; main_loop);;
                  (onSaveImage senv;; main_loop))
                 (fun _ w' _ =>
                    files w' = <[dest := imageBytes]> cached /\
                    imageDisplay (app w') = Some {| texture_bytes := imageBytes |} /\
                    statusBar (app w') = "Image saved to: " +:+ dest) w).
  { wp_step.
    eapply wp_mono.
    { apply (generation_run "dall-e-2" ienv w
               (fun _ w1 _ =>
                  files w1 = cached /\ idle w1 = [] /\
                  imageDisplay (app w1) = Some {| texture_bytes := imageBytes |} /\
                  cache_path w1 = cache_path w) Hprompt Hidle).
      intros s. unfold imageResult. wp_steps. rewrite Hgen, Hdec. wp_steps.
      unfold cached, cache_path. simpl.
      destruct (userConfigDir w) as [dir|] eqn:Hu; wp_steps; rewrite Hwrite; wp_steps;
        rewrite Htex; wp_steps; simpl; rewrite ?Hu; repeat split;
        first [reflexivity | assumption]. }
    intros [] w1 _ (Hf1 & Hq1 & Hp1 & Hc1).
    eapply wp_mono.
    { apply (save_accepted_run senv w1 path
               (fun res wc => res = None /\ files wc = <[dest := imageBytes]> cached)
               Hq1 Hresp Hfile).
      intros wc Hfc Hqc. rewrite Hc1.
      assert (Hsibling : forall t, temp_path (copy senv) dest = Some t ->
                files wc !! dest = None -> t <> dest) by (intros t Ht _; congruence).
      assert (Hsrc : files wc !! cache_path w = Some imageBytes).
      { rewrite Hfc, Hf1. apply lookup_insert_eq. }
      eapply wp_mono.
      { apply wp_conj; [apply wp_conj|].
        - apply (copyImageFile_done (copy senv) (cache_path w) dest wc Hqc Hsibling).
        - apply (copyImageFile_spares_others (copy senv) (cache_path w) dest wc Hqc
                   Hsibling).
        - apply (copyImageFile_returns_no_error (copy senv) (cache_path w) dest wc
                   imageBytes tmpPath Hqc Hmk Hop Hsrc Htmp); [|exact Hcp|exact Hrn].
          rewrite Hfc, Hf1. unfold cached. now rewrite lookup_insert_ne by congruence. }
      intros res w' _ [[[_ _ _ _ Hok] Hothers] ->]. split; [reflexivity|].
      destruct (Hok eq_refl) as (_ & Hd & _).
      apply map_eq. intros p. destruct (decide (p = dest)) as [->|Hp].
      - rewrite lookup_insert_eq. congruence.
      - rewrite lookup_insert_ne by congruence. rewrite (Hothers p Hp). congruence. }
    intros [] w2 _ (res & wcopy & [-> Hfc] & Hf2 & Ha2 & _).
    rewrite Hf2, Ha2. simpl. repeat split; assumption. }
  destruct (wp_elim _ _ _ H) as ([] & Hres & Hrest). fold r in Hres, Hrest.
  split; [exact Hres | exact Hrest].
Qed.

Lemma generated_image_is_saved_witness :
  files (world_of (((First.onGenerateImage image_succeeds;; main_loop);;
                    (onSaveImage save_accepted;; main_loop)) example_world))
    = <["/home/user/Pictures/cat.png" := [Byte.x89; Byte.x50; Byte.x4e]]>
        (<["/home/user/.config/openai-gtk/temp.png" := [Byte.x89; Byte.x50; Byte.x4e]]> ∅).
Proof.
  refine (proj1 (proj2
    (generated_image_is_saved_as_displayed image_succeeds save_accepted example_world
       "iVBO" [] [Byte.x89; Byte.x50; Byte.x4e] "/home/user/Pictures/cat"
       "/home/user/Pictures/3175832007.png"
       _ eq_refl eq_refl eq_refl eq_refl eq_refl eq_refl eq_refl eq_refl eq_refl
       eq_refl eq_refl _ _ eq_refl eq_refl))).
  - discriminate.
  - discriminate.
  - discriminate.
Defined.

(** ** The chat and the store after an exchange *)






(** ** The cache file at shutdown *)

Lemma imageResult_writes_the_cache_only (env : ImageEnv) (w : World) :
  generate_result env <> GenerateOk [] ->
  wp (imageResult env)
     (fun _ w' _ =>
        delete (cache_path w) (files w') = delete (cache_path w) (files w) /\
        db (app w') = db (app w) /\ idle w' = idle w /\
        userConfigDir w' = userConfigDir w /\ tempDir w' = tempDir w) w.
Proof.
  intros Hsafe. unfold imageResult. wp_steps.
  destruct (generate_result env) as [err|[|b rest]]; [|contradiction|];
    [wp_steps; repeat split; reflexivity|].
  destruct (DecodeString env b) as [err|imageBytes];
    [wp_steps; repeat split; reflexivity|].
  wp_steps. unfold cache_path. simpl.
  destruct (userConfigDir w) as [dir|] eqn:Hu; wp_steps;
    destruct (write_result env) as [| |]; wp_steps;
    try (destruct (texture_err env); wp_steps);
    simpl; rewrite ?Hu; repeat split; try reflexivity;
    apply delete_insert_eq.
Qed.

(** [cleanup] removes what the generation of an image left in the file
    system, however the generation ended: after a generation, its closure and
    [cleanup], the cache path holds no file and every other path holds what it
    held before the generation.  The rows of the store are untouched. *)
Theorem cleanup_removes_what_generation_cached (env : ImageEnv) (w : World)
    (Hprompt : imagePrompt (app w) <> "")
    (Hidle : idle w = [])
    (Hsafe : generate_result env <> GenerateOk []) :
  let r := ((First.onGenerateImage env;; main_loop);; cleanup) w in
  result_of r = Some tt /\
  files (world_of r) = delete (cache_path w) (files w) /\
  db (app (world_of r)) = db (app w).
Proof.
  intros r.
  assert (H : wp ((First.onGenerateImage env;; main_loop);; cleanup)
                 (fun _ w' _ =>
                    files w' = delete (cache_path w) (files w) /\
                    db (app w') = db (app w)) w).
  { wp_step.
    eapply wp_mono.
    { apply (generation_run "dall-e-2" env w
               (fun _ w1 _ =>
                  delete (cache_path w) (files w1) = delete (cache_path w) (files w) /\
                  db (app w1) = db (app w) /\
                  userConfigDir w1 = userConfigDir w /\ tempDir w1 = tempDir w)
               Hprompt Hidle).
      intros s.
      eapply wp_mono; [apply (imageResult_writes_the_cache_only env _ Hsafe)|].
      intros [] w1 _ (Hf & Hd & _ & Hu & Ht). repeat split; assumption. }
    intros [] w1 _ (Hf1 & Hd1 & Hu1 & Ht1). unfold cleanup. wp_steps.
    unfold cache_path in *. rewrite <- Hu1, <- Ht1 in *.
    destruct (userConfigDir w1) as [dir|]; wp_steps; simpl; now split. }
  destruct (wp_elim _ _ _ H) as ([] & Hres & Hrest). fold r in Hres, Hrest.
  split; [exact Hres | exact Hrest].
Qed.

Lemma cleanup_witness :
  files (world_of (((First.onGenerateImage image_succeeds;; main_loop);; cleanup)
                     example_world)) = ∅.
Proof.
  refine (proj1 (proj2
    (cleanup_removes_what_generation_cached image_succeeds example_world _ eq_refl _))).
  - discriminate.
  - discriminate.
Defined.
